(** * Connection docking, shape moving and module loading of diagram-js

    Shallow embedding of [lib/layout/ConnectionDocking.js],
    [lib/layout/CroppingConnectionDocking.js] and
    [lib/features/move/Move.js] (the move behaviour, and the diagram's
    [bootstrap] and [createInjector]).

    - Part I    : data model (points, waypoints, docking descriptors,
                  connections) and the JavaScript array primitives used.
    - Part II   : the two docking strategies as functions on values.
    - Part III  : the cropping strategy once more, over an explicit object
                  store, to speak about mutation and aliasing.
    - Part V    : the move behaviour: validated shapes and drag handlers.
    - Part VII  : loading the diagram's modules.
    - Part IV   : the properties of the docking strategies.
    - Part VI   : the properties of the move behaviour.
    - Part VIII : the properties of module loading.
    - Part IX   : cropping against the identity docking, and cropping twice.
    - Part X    : the properties on concrete diagrams.
    - Part XI   : what the cropped array shares with the connection. *)

From stdpp Require Import base option list strings gmap.
From Stdlib Require Import ZArith Lia QArith Qround Lqa.

Local Open Scope Z_scope.
Local Set Warnings "-register-all".

(* ===================================================================== *)
(** * Part I: data model                                                  *)
(* ===================================================================== *)

(** A point object as the docking code sees it: the own properties [x],
    [y] and [original].  A field is [None] when the object has no such own
    property (reading it yields [undefined]).  The coordinate type [num]
    is left open: the docking code copies coordinates and never computes
    with them.  [original] is a reference to another point object. *)
Inductive Waypoint (num : Type) : Type :=
  mkWaypoint {
    x : option num;
    y : option num;
    original : option (Waypoint num)
  }.
Arguments mkWaypoint {num} _ _ _.
Arguments x {num} _.
Arguments y {num} _.
Arguments original {num} _.

(** [{ x: a, y: b }] *)
Definition pt {num} (a b : num) : Waypoint num :=
  mkWaypoint (Some a) (Some b) None.

(** [{ x: a, y: b, original: o }] *)
Definition ptOrig {num} (a b : num) (o : Waypoint num) : Waypoint num :=
  mkWaypoint (Some a) (Some b) (Some o).

(** The logical anchor of a waypoint: [p.original || p]. *)
Definition anchor {num} (p : Waypoint num) : Waypoint num :=
  default p (original p).

(** Two point objects denote the same planar point. *)
Definition sameCoordinates {num} (p q : Waypoint num) : Prop :=
  x p = x q ∧ y p = y q.

(** The plain point [{ x, y }] handed out by the intersection routine. *)
Record Point (num : Type) : Type := mkPoint { px : num; py : num }.
Arguments mkPoint {num} _ _.
Arguments px {num} _.
Arguments py {num} _.

Definition ofPoint {num} (p : Point num) : Waypoint num := pt (px p) (py p).

(** [DockingPointDescriptor]: [{ point, actual, idx }].  [point] and
    [actual] are [None] when the property holds [undefined]. *)
Record DockingPointDescriptor (num : Type) : Type :=
  mkDocking {
    point : option (Waypoint num);
    actual : option (Waypoint num);
    idx : Z
  }.
Arguments mkDocking {num} _ _ _.
Arguments point {num} _.
Arguments actual {num} _.
Arguments idx {num} _.

(** A connection: its waypoints and its two endpoint references. *)
Record Connection (num Shape : Type) : Type :=
  mkConnection {
    waypoints : list (Waypoint num);
    source : option Shape;
    target : option Shape
  }.
Arguments mkConnection {num Shape} _ _ _.
Arguments waypoints {num Shape} _.
Arguments source {num Shape} _.
Arguments target {num Shape} _.

(** The first argument of [getCroppedWaypoints]:
    [djs.model.Connection | Array<Point>]. *)
Inductive ConnectionOrWaypoints (num Shape : Type) : Type :=
  | AConnection (c : Connection num Shape)
  | AnArray (w : list (Waypoint num)).
Arguments AConnection {num Shape} _.
Arguments AnArray {num Shape} _.

(** Outcome of a call: a value, or a thrown error. *)
Inductive JsError : Type := TypeError.

Inductive Completion (A : Type) : Type :=
  | Normal (a : A)
  | Throw (e : JsError).
Arguments Normal {A} _.
Arguments Throw {A} _.

#[global] Instance Completion_ret : MRet Completion := @Normal.

#[global] Instance Completion_bind : MBind Completion :=
  fun A B (k : A → Completion B) (c : Completion A) =>
    match c with
    | Normal a => k a
    | Throw e => Throw e
    end.

(** [connectionOrWaypoints.source], [.target] and
    [connectionOrWaypoints.waypoints || connectionOrWaypoints]: an array
    has none of the three properties. *)
Definition sourceOf {num Shape} (cow : ConnectionOrWaypoints num Shape)
  : option Shape :=
  match cow with
  | AConnection c => source c
  | AnArray _ => None
  end.

Definition targetOf {num Shape} (cow : ConnectionOrWaypoints num Shape)
  : option Shape :=
  match cow with
  | AConnection c => target c
  | AnArray _ => None
  end.

Definition waypointsOf {num Shape} (cow : ConnectionOrWaypoints num Shape)
  : list (Waypoint num) :=
  match cow with
  | AConnection c => waypoints c
  | AnArray w => w
  end.

Module Js.

(** [a || b] on references that are objects when defined. *)
Definition or {A} (a b : option A) : option A :=
  match a with
  | Some v => Some v
  | None => b
  end.

(** [arr[i]]: [undefined] outside [0 .. length-1]. *)
Definition index {A} (arr : list A) (i : Z) : option A :=
  if i <? 0 then None else arr !! Z.to_nat i.

(** [arr.length] *)
Definition length {A} (arr : list A) : Z := Z.of_nat (List.length arr).

(** [arr.slice(start, end)], with the relative-index rule of
    Array.prototype.slice: a negative bound counts from the end, and
    both bounds are clamped to [0 .. length]. *)
Definition slice {A} (arr : list A) (start end_ : Z) : list A :=
  let len := length arr in
  let k := if start <? 0 then Z.max (len + start) 0 else Z.min start len in
  let final := if end_ <? 0 then Z.max (len + end_) 0 else Z.min end_ len in
  take (Z.to_nat (final - k)) (drop (Z.to_nat k) arr).

(** [arr.unshift(v)] and [arr.push(v)]: the contents afterwards. *)
Definition unshift {A} (arr : list A) (v : A) : list A := v :: arr.

Definition push {A} (arr : list A) (v : A) : list A := arr ++ [v].

(** [assign(target, src)] of min-dash, that is [Object.assign]: every
    own property of [src] overwrites the one of [target]; an
    [undefined] source is skipped. *)
Definition assign {num} (tgt : Waypoint num) (src : option (Waypoint num))
  : Waypoint num :=
  match src with
  | None => tgt
  | Some s =>
      mkWaypoint (or (x s) (x tgt)) (or (y s) (y tgt))
                 (or (original s) (original tgt))
  end.

End Js.

(* ===================================================================== *)
(** * Part II: the docking strategies                                     *)
(* ===================================================================== *)

(** ** lib/layout/ConnectionDocking.js *)
Module ConnectionDocking.
Section Impl.
Context {num Shape : Type}.

Definition getCroppedWaypoints
    (connectionOrWaypoints : ConnectionOrWaypoints num Shape)
    (source target : option Shape) : list (Waypoint num) :=
  waypointsOf connectionOrWaypoints.

Definition getDockingPoint
    (waypoints : list (Waypoint num)) (shape : option Shape)
    (dockStart : bool) : DockingPointDescriptor num :=
  let dockingIdx := if dockStart then 0 else Js.length waypoints - 1 in
  let dockingPoint := Js.index waypoints dockingIdx in
  {| point := dockingPoint;
     actual := dockingPoint;
     idx := dockingIdx |}.

End Impl.
End ConnectionDocking.

(** ** lib/layout/CroppingConnectionDocking.js *)

(** The collaborators of the cropping strategy.  Neither the graphics
    factory nor [LayoutUtil.getElementLineIntersection] is part of the two
    files; they are taken as parameters.  A path is the SVG path string
    the graphics factory hands out, or [undefined]. *)
Definition Path : Type := option string.

Record GraphicsFactory (num Shape : Type) : Type :=
  mkGraphicsFactory {
    getShapePath : option Shape → Path;
    getConnectionPath : list (Waypoint num) → Path
  }.
Arguments mkGraphicsFactory {num Shape} _ _.
Arguments getShapePath {num Shape} _ _.
Arguments getConnectionPath {num Shape} _ _.

(** [getElementLineIntersection(elementPath, linePath, cropStart)]:
    a plain point, or nothing. *)
Definition Intersection (num : Type) : Type :=
  Path → Path → bool → option (Point num).

(** "No boundary available": the shape path is undefined or empty. *)
Definition noBoundary (p : Path) : Prop := p = None ∨ p = Some ""%string.

(** The intersection routine reports nothing for a shape without boundary. *)
Definition nothingWithoutBoundary {num} (isect : Intersection num) : Prop :=
  ∀ shapePath connectionPath cropStart,
    noBoundary shapePath → isect shapePath connectionPath cropStart = None.

(** The fallback situation at one end of a connection: the shape has no
    boundary, or the intersection routine finds no crossing. *)
Definition noCrossing {num Shape} (gf : GraphicsFactory num Shape)
    (isect : Intersection num) (ws : list (Waypoint num))
    (shape : option Shape) (dockStart : bool) : Prop :=
  noBoundary (getShapePath gf shape)
  ∨ isect (getShapePath gf shape) (getConnectionPath gf ws) dockStart = None.

Module CroppingConnectionDocking.
Section Impl.
Context {num Shape : Type}.
Variable _graphicsFactory : GraphicsFactory num Shape.
Variable getElementLineIntersection : Intersection num.

Definition dockingToPoint (docking : DockingPointDescriptor num)
  : Completion (Waypoint num) :=
  match point docking with
  | None => Throw TypeError
  | Some p =>
      Normal (Js.assign
                (mkWaypoint None None (Js.or (original p) (Some p)))
                (actual docking))
  end.

Definition _getShapePath (shape : option Shape) : Path :=
  getShapePath _graphicsFactory shape.

Definition _getConnectionPath (waypoints : list (Waypoint num)) : Path :=
  getConnectionPath _graphicsFactory waypoints.

Definition _getIntersection (shape : option Shape)
    (waypoints : list (Waypoint num)) (takeFirst : bool)
  : option (Point num) :=
  let shapePath := _getShapePath shape in
  let connectionPath := _getConnectionPath waypoints in
  getElementLineIntersection shapePath connectionPath takeFirst.

Definition getDockingPoint
    (waypoints : list (Waypoint num)) (shape : option Shape)
    (dockStart : bool) : DockingPointDescriptor num :=
  let dockingIdx := if dockStart then 0 else Js.length waypoints - 1 in
  let dockingPoint := Js.index waypoints dockingIdx in
  let croppedPoint := _getIntersection shape waypoints dockStart in
  {| point := dockingPoint;
     actual := Js.or (ofPoint <$> croppedPoint) dockingPoint;
     idx := dockingIdx |}.

(** The second call passes no [dockStart]: it is [undefined], hence
    falsy, in [getDockingPoint] and in the intersection routine. *)
Definition getCroppedWaypoints
    (connectionOrWaypoints : ConnectionOrWaypoints num Shape)
    (source target : option Shape) : Completion (list (Waypoint num)) :=
  let source := Js.or source (sourceOf connectionOrWaypoints) in
  let target := Js.or target (targetOf connectionOrWaypoints) in
  let waypoints := waypointsOf connectionOrWaypoints in
  let sourceDocking := getDockingPoint waypoints source true in
  let targetDocking := getDockingPoint waypoints target false in
  let croppedWaypoints :=
    Js.slice waypoints (idx sourceDocking + 1) (idx targetDocking) in
  first ← dockingToPoint sourceDocking;
  let croppedWaypoints := Js.unshift croppedWaypoints first in
  last ← dockingToPoint targetDocking;
  let croppedWaypoints := Js.push croppedWaypoints last in
  Normal croppedWaypoints.

End Impl.
End CroppingConnectionDocking.

(* ===================================================================== *)
(** * Part III: the cropping strategy over an object store                *)
(* ===================================================================== *)

(** Objects live in a store and are passed by reference.  The store holds
    the three kinds of objects the docking code touches: point objects,
    arrays of references to point objects, and connections.  Shapes are
    only handed on to the graphics factory and stay abstract values.
    Docking descriptors are built once and never written to; they are
    kept as values holding references. *)
Module OnStore.

Abbreviation loc := positive (only parsing).

Inductive Cell (num Shape : Type) : Type :=
  | PointObj (x y : option num) (original : option loc)
  | ArrayObj (elems : list loc)
  | ConnectionObj (waypoints : loc) (source target : option Shape).
Arguments PointObj {num Shape} _ _ _.
Arguments ArrayObj {num Shape} _.
Arguments ConnectionObj {num Shape} _ _ _.

Abbreviation Store num Shape := (gmap positive (Cell num Shape)) (only parsing).

Record Docking : Type :=
  mkDockingRef {
    pointRef : option loc;
    actualRef : option loc;
    idxOf : Z
  }.

(** Outcome of running a piece of code from a store: the store afterwards
    with a value or a thrown error, or [Stuck] when a reference does not
    lead to an object of the kind the code expects. *)
Inductive Outcome (St A : Type) : Type :=
  | Done (s : St) (a : A)
  | Raised (s : St) (e : JsError)
  | Stuck.
Arguments Done {St A} _ _.
Arguments Raised {St A} _ _.
Arguments Stuck {St A}.

Section Impl.
Context {num Shape : Type}.

Definition Run (A : Type) : Type := Store num Shape → Outcome (Store num Shape) A.

Definition ret {A} (a : A) : Run A := fun h => Done h a.

Definition bind {A B} (m : Run A) (k : A → Run B) : Run B :=
  fun h =>
    match m h with
    | Done h' a => k a h'
    | Raised h' e => Raised h' e
    | Stuck => Stuck
    end.

#[global] Instance Run_ret : MRet Run := @ret.

#[global] Instance Run_bind : MBind Run := fun A B k m => bind m k.

Definition raise {A} (e : JsError) : Run A := fun h => Raised h e.

Definition stuck {A} : Run A := fun _ => Stuck.

(** A new object, at a reference not in use. *)
Definition alloc (c : Cell num Shape) : Run loc :=
  fun h => let l := fresh (dom h) in Done (<[l := c]> h) l.

Definition readCell (l : loc) : Run (Cell num Shape) :=
  fun h => match h !! l with Some c => Done h c | None => Stuck end.

Definition readArray (l : loc) : Run (list loc) :=
  c ← readCell l;
  match c with ArrayObj es => ret es | _ => stuck end.

Definition readPoint (l : loc) : Run (option num * option num * option loc) :=
  c ← readCell l;
  match c with PointObj a b o => ret (a, b, o) | _ => stuck end.

(** In-place update of an existing object. *)
Definition write (l : loc) (c : Cell num Shape) : Run unit :=
  fun h => match h !! l with Some _ => Done (<[l := c]> h) () | None => Stuck end.

(** The graphics factory reads the connection's waypoints through the
    store; it returns a path and leaves the store alone. *)
Record GraphicsFactory : Type :=
  mkGraphicsFactory {
    getShapePath : option Shape → Path;
    getConnectionPath : Store num Shape → loc → Path
  }.

Variable _graphicsFactory : GraphicsFactory.
Variable getElementLineIntersection : Intersection num.

(** [Object.assign(target, src)]: writes to [target], returns it. *)
Definition assign (tgt : loc) (src : option loc) : Run loc :=
  match src with
  | None => ret tgt
  | Some s =>
      '(sx, sy, so) ← readPoint s;
      '(tx, ty, to) ← readPoint tgt;
      _ ← write tgt (PointObj (Js.or sx tx) (Js.or sy ty) (Js.or so to));
      ret tgt
  end.

(** [arr.slice(start, end)]: a new array. *)
Definition slice (arr : loc) (start end_ : Z) : Run loc :=
  es ← readArray arr;
  alloc (ArrayObj (Js.slice es start end_)).

(** [arr.unshift(v)] and [arr.push(v)]: in place. *)
Definition unshift (arr : loc) (v : loc) : Run unit :=
  es ← readArray arr;
  write arr (ArrayObj (Js.unshift es v)).

Definition push (arr : loc) (v : loc) : Run unit :=
  es ← readArray arr;
  write arr (ArrayObj (Js.push es v)).

Definition dockingToPoint (docking : Docking) : Run loc :=
  match pointRef docking with
  | None => raise TypeError
  | Some p =>
      '(_, _, o) ← readPoint p;
      literal ← alloc (PointObj None None (Js.or o (Some p)));
      assign literal (actualRef docking)
  end.

(** The intersection routine returns a new plain point object. *)
Definition _getIntersection (shape : option Shape) (waypoints : loc)
    (takeFirst : bool) : Run (option loc) :=
  fun h =>
    let shapePath := getShapePath _graphicsFactory shape in
    let connectionPath := getConnectionPath _graphicsFactory h waypoints in
    match getElementLineIntersection shapePath connectionPath takeFirst with
    | Some p =>
        (l ← alloc (PointObj (Some (px p)) (Some (py p)) None); ret (Some l)) h
    | None => ret None h
    end.

Definition getDockingPoint (waypoints : loc) (shape : option Shape)
    (dockStart : bool) : Run Docking :=
  es ← readArray waypoints;
  let dockingIdx := if dockStart then 0 else Js.length es - 1 in
  let dockingPoint := Js.index es dockingIdx in
  croppedPoint ← _getIntersection shape waypoints dockStart;
  ret {| pointRef := dockingPoint;
         actualRef := Js.or croppedPoint dockingPoint;
         idxOf := dockingIdx |}.

Definition getCroppedWaypoints (connectionOrWaypoints : loc)
    (source target : option Shape) : Run loc :=
  c ← readCell connectionOrWaypoints;
  let source :=
    Js.or source (match c with ConnectionObj _ s _ => s | _ => None end) in
  let target :=
    Js.or target (match c with ConnectionObj _ _ t => t | _ => None end) in
  let waypoints :=
    match c with ConnectionObj w _ _ => w | _ => connectionOrWaypoints end in
  sourceDocking ← getDockingPoint waypoints source true;
  targetDocking ← getDockingPoint waypoints target false;
  croppedWaypoints ←
    slice waypoints (idxOf sourceDocking + 1) (idxOf targetDocking);
  first ← dockingToPoint sourceDocking;
  _ ← unshift croppedWaypoints first;
  last ← dockingToPoint targetDocking;
  _ ← push croppedWaypoints last;
  ret croppedWaypoints.

(** *** Reading values back from the store *)

(** The point object at [l] denotes the value [w]. *)
Inductive reprPoint (h : Store num Shape) : loc → Waypoint num → Prop :=
  | repr_plain l a b :
      h !! l = Some (PointObj a b None) →
      reprPoint h l (mkWaypoint a b None)
  | repr_original l a b lo wo :
      h !! l = Some (PointObj a b (Some lo)) →
      reprPoint h lo wo →
      reprPoint h l (mkWaypoint a b (Some wo)).

Definition reprArray (h : Store num Shape) (l : loc)
    (ws : list (Waypoint num)) : Prop :=
  ∃ es, h !! l = Some (ArrayObj es) ∧ Forall2 (reprPoint h) es ws.

Definition reprInput (h : Store num Shape) (l : loc)
    (cow : ConnectionOrWaypoints num Shape) : Prop :=
  match cow with
  | AnArray ws => reprArray h l ws
  | AConnection c =>
      ∃ a, h !! l = Some (ConnectionObj a (source c) (target c))
           ∧ reprArray h a (waypoints c)
  end.

Definition reprDocking (h : Store num Shape) (d : Docking)
    (dv : DockingPointDescriptor num) : Prop :=
  option_Forall2 (reprPoint h) (pointRef d) (point dv)
  ∧ option_Forall2 (reprPoint h) (actualRef d) (actual dv)
  ∧ idxOf d = idx dv.

(** The outcome [o] of a run denotes the completion [c]. *)
Definition reprOutcome {A B} (R : Store num Shape → A → B → Prop)
    (o : Outcome (Store num Shape) A) (c : Completion B) : Prop :=
  match o, c with
  | Done h a, Normal b => R h a b
  | Raised _ e, Throw e' => e = e'
  | _, _ => False
  end.

(** Every object of [h] is still there in [h'], with the same contents. *)
Definition untouched (h h' : Store num Shape) : Prop :=
  ∀ l c, h !! l = Some c → h' !! l = Some c.

(** Every point object of [h] is still there in [h'], unchanged. *)
Definition pointsKept (h h' : Store num Shape) : Prop :=
  ∀ l a b o, h !! l = Some (PointObj a b o) → h' !! l = Some (PointObj a b o).

Definition finalStore {A} (o : Outcome (Store num Shape) A)
  : option (Store num Shape) :=
  match o with
  | Done h _ => Some h
  | Raised h _ => Some h
  | Stuck => None
  end.

(** Run from any store that still has the objects of [h0] as they are,
    [m] ends, if it ends, in such a store again, with a result in [Q]. *)
Definition keeps {A} (h0 : Store num Shape) (m : Run A) (Q : A → Prop)
  : Prop :=
  ∀ h, untouched h0 h →
       match m h with
       | Done h' a => untouched h0 h' ∧ Q a
       | Raised h' _ => untouched h0 h'
       | Stuck => True
       end.

End Impl.
End OnStore.

(** The store-reading graphics factory computes what the value-level one
    computes on the waypoints the array denotes. *)
Definition agrees {num Shape} (gfS : @OnStore.GraphicsFactory num Shape)
    (gf : GraphicsFactory num Shape) : Prop :=
  (∀ s, OnStore.getShapePath gfS s = getShapePath gf s)
  ∧ (∀ h a ws, OnStore.reprArray h a ws →
       OnStore.getConnectionPath gfS h a = getConnectionPath gf ws).

(* ===================================================================== *)
(** * A concrete diagram                                                  *)
(* ===================================================================== *)

(** Two rectangles, [Left] spanning x in [0,100], y in [0,100] and [Right]
    spanning x in [200,300], y in [0,100], and a shape that has not been
    rendered.  The intersection routine is tabulated for the straight
    connector from (50,50) to (250,50): it leaves [Left] at (100,50) and
    enters [Right] at (200,50).  A sequence of fewer than two waypoints
    draws no line. *)
Module Worked.

Inductive Shape : Type := Left | Right | Unrendered.

Definition leftPath : string := "M0,0L100,0L100,100L0,100Z".

Definition rightPath : string := "M200,0L300,0L300,100L200,100Z".

Definition linePath : string := "M50,50L250,50".

Definition shapePath (shape : option Shape) : Path :=
  match shape with
  | Some Left => Some leftPath
  | Some Right => Some rightPath
  | Some Unrendered => Some ""%string
  | None => None
  end.

Definition graphicsFactory : GraphicsFactory Z Shape :=
  {| getShapePath := shapePath;
     getConnectionPath ws :=
       match ws with
       | _ :: _ :: _ => Some linePath
       | _ => None
       end |}.

Definition intersection : Intersection Z :=
  fun shapePath connectionPath _ =>
    match shapePath, connectionPath with
    | Some sp, Some _ =>
        if String.eqb sp leftPath then Some (mkPoint 100 50)
        else if String.eqb sp rightPath then Some (mkPoint 200 50)
        else None
    | _, _ => None
    end.

(** The same graphics factory, reading the waypoints through the store. *)
Definition storeGraphicsFactory : @OnStore.GraphicsFactory Z Shape :=
  {| OnStore.getShapePath := shapePath;
     OnStore.getConnectionPath h a :=
       match h !! a with
       | Some (OnStore.ArrayObj (_ :: _ :: _)) => Some linePath
       | _ => None
       end |}.

(** A store holding the connector [(50,50), (250,50)] as array 1. *)
Definition store : gmap positive (OnStore.Cell Z Shape) :=
  {[ 1%positive := OnStore.ArrayObj [2%positive; 3%positive];
     2%positive := OnStore.PointObj (Some 50) (Some 50) None;
     3%positive := OnStore.PointObj (Some 250) (Some 50) None ]}.

Definition connector : list (Waypoint Z) := [pt 50 50; pt 250 50].

End Worked.

(* ===================================================================== *)
(** * Part V: moving shapes (lib/features/move/Move.js)                   *)
(* ===================================================================== *)

(** Of an element the move code reads [id] and [parent].  An element is
    given with its chain of parents, which ends at an element without
    parent.  Ids are taken from a type [Id] with decidable equality: they
    stand for the non-empty strings the diagram uses as ids (none of them
    the name of a member of [Object.prototype]), so that [id || '_'] is
    the id and [ids[id]] reads an own property of the grouping object. *)
Module MoveEvents.

Inductive Element (Id : Type) : Type :=
  mkElement {
    id : Id;
    parent : option (Element Id)
  }.
Arguments mkElement {Id} _ _.
Arguments id {Id} _.
Arguments parent {Id} _.

(** A pair [{ x, y }] of finite numbers. *)
Record XY : Type := mkXY { x : Q; y : Q }.

(** What [rules.allowed] answers: [false], [true], [null], or a string
    such as ['attach']. *)
Inductive Verdict : Type :=
  | VFalse
  | VTrue
  | VNull
  | VString (s : string).

(** The second argument of [rules.allowed]. *)
Record RulesContext (Id : Type) : Type :=
  mkRulesContext {
    rcShapes : option (list (Element Id));
    rcDelta : option XY;
    rcPosition : option XY;
    rcTarget : option (Element Id)
  }.
Arguments mkRulesContext {Id} _ _ _ _.

(** The move context, an object shared by the handlers of one drag; a
    field is [None] while the property is not set (or holds [null]). *)
Record Context (Id : Type) : Type :=
  mkContext {
    delta : option XY;
    canExecute : option Verdict;
    target : option (Element Id);
    shapes : option (list (Element Id));
    validatedShapes : option (list (Element Id));
    shape : option (Element Id)
  }.
Arguments mkContext {Id} _ _ _ _ _ _.
Arguments delta {Id} _.
Arguments canExecute {Id} _.
Arguments target {Id} _.
Arguments shapes {Id} _.
Arguments validatedShapes {Id} _.
Arguments shape {Id} _.

(** The event passed to the ['shape.move.move'] handler. *)
Record MoveEvent (Id : Type) : Type :=
  mkMoveEvent {
    hover : option (Element Id);
    dx : Q;
    dy : Q;
    evX : Q;
    evY : Q
  }.
Arguments mkMoveEvent {Id} _ _ _ _ _.
Arguments hover {Id} _.
Arguments dx {Id} _.
Arguments dy {Id} _.
Arguments evX {Id} _.
Arguments evY {Id} _.

(** One call [modeling.moveElements(shapes, delta, target, hints)]. *)
Record MoveElementsCall (Id : Type) : Type :=
  mkCall {
    callShapes : option (list (Element Id));
    callDelta : XY;
    callTarget : option (Element Id);
    primaryShape : option (Element Id);
    attach : bool
  }.
Arguments mkCall {Id} _ _ _ _ _.
Arguments callShapes {Id} _.
Arguments callDelta {Id} _.
Arguments callTarget {Id} _.
Arguments primaryShape {Id} _.
Arguments attach {Id} _.

(** What a handler returns to the event bus. *)
Inductive Returned : Type := ReturnsFalse | ReturnsUndefined.

(** The ['shape.move.end'] handler, seen from outside: the context as it
    leaves it, the call to the modeling it made, and its return value. *)
Record EndResult (Id : Type) : Type :=
  mkEndResult {
    endContext : Context Id;
    moved : option (MoveElementsCall Id);
    returned : Returned
  }.
Arguments mkEndResult {Id} _ _ _.
Arguments endContext {Id} _.
Arguments moved {Id} _.
Arguments returned {Id} _.

(** The geometry of an element that [mid] reads: [x], [y], [width] and
    [height], taken as exact numbers. *)
Record Bounds : Type :=
  mkBounds { elX : Q; elY : Q; elWidth : Q; elHeight : Q }.

(** The third argument of [start]: a boolean, or a context object. *)
Inductive Activate (Id : Type) : Type :=
  | ActivateFlag (b : bool)
  | ActivateContext (c : Context Id).
Arguments ActivateFlag {Id} _.
Arguments ActivateContext {Id} _.

(** One call [dragging.init(event, referencePoint, prefix, options)]. *)
Record DraggingInit (Id DomEvent : Type) : Type :=
  mkDraggingInit {
    initEvent : DomEvent;
    referencePoint : XY;
    prefix : string;
    cursor : string;
    autoActivate : option bool;
    dataShape : Element Id;
    dataContext : Context Id
  }.
Arguments mkDraggingInit {Id DomEvent} _ _ _ _ _ _ _.
Arguments initEvent {Id DomEvent} _.
Arguments referencePoint {Id DomEvent} _.
Arguments prefix {Id DomEvent} _.
Arguments cursor {Id DomEvent} _.
Arguments autoActivate {Id DomEvent} _.
Arguments dataShape {Id DomEvent} _.
Arguments dataContext {Id DomEvent} _.

(** [Math.round]: the closest integer, a tie going up. *)
Definition round (q : Q) : Q := inject_Z (Qfloor (q + (1 # 2))%Q).

Definition mid (element : Bounds) : XY :=
  {| x := (elX element + round (elWidth element / 2))%Q;
     y := (elY element + round (elHeight element / 2))%Q |}.

(** [!v] is [false] for the verdicts [true] and a non-empty string. *)
Definition truthy (v : Verdict) : bool :=
  match v with
  | VTrue => true
  | VString s => negb (String.eqb s "")
  | VFalse | VNull => false
  end.

Section Impl.
Context {Id : Type} `{Countable Id}.

(** Same object: same id and same chain of parents. *)
Fixpoint sameElement (a b : Element Id) : bool :=
  bool_decide (id a = id b)
  && match parent a, parent b with
     | Some p, Some q => sameElement p q
     | None, None => true
     | _, _ => false
     end.

(** [arr.indexOf(v)] on elements: the first index holding [v], or -1. *)
Fixpoint indexOfFrom (arr : list (Element Id)) (v : Element Id) (i : Z) : Z :=
  match arr with
  | [] => -1
  | a :: rest => if sameElement a v then i else indexOfFrom rest v (i + 1)
  end.

Definition indexOf (arr : list (Element Id)) (v : Element Id) : Z :=
  indexOfFrom arr v 0.

(** [groupBy(collection, 'id')] of min-dash: an object with, per id, the
    elements having it, in order. *)
Definition groupBy (collection : list (Element Id))
  : gmap Id (list (Element Id)) :=
  foldl (fun grouped val =>
           let discriminator := id val in
           let group := default [] (grouped !! discriminator) in
           <[discriminator := group ++ [val]]> grouped)
        ∅ collection.

(** The matcher of [removeNested]: walk up the parents; [false] at the
    first one whose id is in [ids], [true] when there is no parent left. *)
Fixpoint hasNoParentIn (ids : gmap Id (list (Element Id)))
    (element : Element Id) : bool :=
  match parent element with
  | Some p => if ids !! id p is Some _ then false else hasNoParentIn ids p
  | None => true
  end.

Definition removeNested (elements : list (Element Id))
  : list (Element Id) :=
  let ids := groupBy elements in
  filter (fun element => hasNoParentIn ids element = true) elements.

(** [_selection] is what [this._selection.get()] returns. *)
Definition getValidatedShapes (_selection : list (Element Id))
    (shape : Element Id) : list (Element Id) :=
  let shapes := _selection in
  let shapes :=
    if indexOf shapes shape =? -1 then [shape] else shapes in
  let shapes := removeNested shapes in
  shapes.

(** [rules.allowed(action, context)] *)
Variable allowed : string → RulesContext Id → Verdict.

Definition canMove (shapes : option (list (Element Id)))
    (delta position : option XY) (target : option (Element Id)) : Verdict :=
  allowed "elements.move"
    {| rcShapes := shapes; rcDelta := delta;
       rcPosition := position; rcTarget := target |}.

(** The handler of ['shape.move.move']; it updates the context. *)
Definition onShapeMoveMove (event : MoveEvent Id) (context : Context Id)
  : Context Id :=
  let validatedShapes := MoveEvents.validatedShapes context in
  let hover := MoveEvents.hover event in
  let delta := {| x := dx event; y := dy event |} in
  let position := {| x := evX event; y := evY event |} in
  let canExecute :=
    canMove validatedShapes (Some delta) (Some position) hover in
  let context :=
    mkContext (Some delta) (Some canExecute) (MoveEvents.target context)
      (shapes context) validatedShapes (shape context) in
  match canExecute with
  | VNull =>
      mkContext (MoveEvents.delta context) (MoveEvents.canExecute context)
        None (shapes context) validatedShapes (shape context)
  | _ =>
      mkContext (MoveEvents.delta context) (MoveEvents.canExecute context)
        hover (shapes context) validatedShapes (shape context)
  end.

(** The handler of ['shape.move.end'].  It rounds the delta in place. *)
Definition onShapeMoveEnd (context : Context Id)
  : Completion (EndResult Id) :=
  let delta := MoveEvents.delta context in
  let canExecute := MoveEvents.canExecute context in
  let isAttach :=
    match canExecute with
    | Some (VString s) => String.eqb s "attach"
    | _ => false
    end in
  let shapes := MoveEvents.shapes context in
  match canExecute with
  | Some VFalse => Normal (mkEndResult context None ReturnsFalse)
  | _ =>
      match delta with
      | None => Throw TypeError
      | Some d =>
          let d := {| x := round (x d); y := round (y d) |} in
          let context :=
            mkContext (Some d) canExecute (target context) shapes
              (validatedShapes context) (shape context) in
          if Qeq_bool (x d) 0%Q && Qeq_bool (y d) 0%Q
          then Normal (mkEndResult context None ReturnsUndefined)
          else
            Normal (mkEndResult context
                      (Some {| callShapes := shapes;
                               callDelta := d;
                               callTarget := target context;
                               primaryShape := shape context;
                               attach := isAttach |})
                      ReturnsUndefined)
      end
  end.

Definition initContext (context : option (Context Id))
    (canExecute : Verdict) (shapes : list (Element Id))
    (element : Element Id) : Context Id :=
  let context := default (mkContext None None None None None None) context in
  mkContext (MoveEvents.delta context) (Some canExecute)
    (MoveEvents.target context) (Some shapes) (Some shapes) (Some element).

(** [start]: [Some] of the call to [dragging.init] it makes when it
    returns [true], [None] when it returns without doing anything.
    [geometry] reads the position and size off an element. *)
Definition start {DomEvent : Type} (_selection : list (Element Id))
    (geometry : Element Id → Bounds)
    (event : DomEvent) (element : Element Id)
    (activate : option (Activate Id)) (context : option (Context Id))
  : option (DraggingInit Id DomEvent) :=
  let '(activate, context) :=
    match activate with
    | Some (ActivateContext c) => (Some false, Some c)
    | Some (ActivateFlag b) => (Some b, context)
    | None => (None, context)
    end in
  let shapes := getValidatedShapes _selection element in
  let canExecute := canMove (Some shapes) None None None in
  if negb (truthy canExecute) then None
  else
    let context := initContext context canExecute shapes element in
    let referencePoint := mid (geometry element) in
    Some {| initEvent := event;
            referencePoint := referencePoint;
            prefix := "shape.move";
            cursor := "grabbing";
            autoActivate := activate;
            dataShape := element;
            dataContext := context |}.

End Impl.

(** The parents of an element, nearest first. *)
Fixpoint ancestors {Id} (element : Element Id) : list (Element Id) :=
  match parent element with
  | Some p => p :: ancestors p
  | None => []
  end.



End MoveEvents.

(** A small diagram for the move code: a process holding a participant,
    which holds two tasks; ids are strings. *)
Module WorkedMove.

Definition process : MoveEvents.Element string :=
  MoveEvents.mkElement "Process_1"%string None.

Definition participant : MoveEvents.Element string :=
  MoveEvents.mkElement "Participant_1"%string (Some process).

Definition task1 : MoveEvents.Element string :=
  MoveEvents.mkElement "Task_1"%string (Some participant).

Definition task2 : MoveEvents.Element string :=
  MoveEvents.mkElement "Task_2"%string (Some participant).

(** A drag of three and a half pixels to the right and a quarter up,
    allowed by the rules, over the participant. *)
Definition dragged : MoveEvents.Context string :=
  MoveEvents.mkContext
    (Some {| MoveEvents.x := 7 # 2; MoveEvents.y := - (1 # 4) |})
    (Some MoveEvents.VTrue) (Some participant)
    (Some [task1]) (Some [task1]) (Some task1).

End WorkedMove.

(* ===================================================================== *)
(** * Part VII: bootstrapping the diagram (second half of Move.js)        *)
(* ===================================================================== *)

(** A didi module, as far as [bootstrap] reads it: the modules it depends
    on and the components to instantiate; an absent [__depends__] or
    [__init__] is the empty list (the code reads [m.__depends__ || []]).
    [ident] stands for the identity of the module object, which is what
    [modules.indexOf(m)] compares.  A module is given with the modules it
    depends on, so that dependencies cannot be cyclic. *)
Module Diagram.

Inductive DidiModule (Component : Type) : Type :=
  mkModule {
    ident : positive;
    __depends__ : list (DidiModule Component);
    __init__ : list Component
  }.
Arguments mkModule {Component} _ _ _.
Arguments ident {Component} _.
Arguments __depends__ {Component} _.
Arguments __init__ {Component} _.

(** Outcome of a call that may throw an error of type [E]. *)
Inductive Attempt (E A : Type) : Type :=
  | Returned (a : A)
  | Thrown (e : E).
Arguments Returned {E A} _.
Arguments Thrown {E A} _.

(** The two arrays [modules] and [components] that [bootstrap] fills. *)
Record Loaded (Component : Type) : Type :=
  mkLoaded {
    modules : list (DidiModule Component);
    components : list Component
  }.
Arguments mkLoaded {Component} _ _.
Arguments modules {Component} _.
Arguments components {Component} _.

(** [options], as far as [createInjector] reads it. *)
Record Options (Component : Type) : Type :=
  mkOptions { optionModules : option (list (DidiModule Component)) }.
Arguments mkOptions {Component} _.
Arguments optionModules {Component} _.

(** A module with all the modules it depends on, directly or not. *)
Fixpoint subModules {Component} (m : DidiModule Component)
  : list (DidiModule Component) :=
  m :: flat_map subModules (__depends__ m).

Section Impl.
Context {Component Injector Error : Type}.

(** [new Injector(modules)], and the eager resolution
    [injector.get(c)] / [injector.invoke(c)] of a component, which may
    throw. *)
Variable newInjector : list (DidiModule Component) → Injector.
Variable resolve : Injector → Component → Attempt Error Injector.

(** [modules.indexOf(m) >= 0] *)
Definition hasModule (modules : list (DidiModule Component))
    (m : DidiModule Component) : bool :=
  existsb (fun m' => Pos.eqb (ident m') (ident m)) modules.

Definition addModule (st : Loaded Component) (m : DidiModule Component)
  : Loaded Component :=
  mkLoaded (modules st ++ [m]) (components st).

Fixpoint visit (m : DidiModule Component) (st : Loaded Component)
  : Loaded Component :=
  if hasModule (modules st) m then st
  else
    let st := foldl (fun st d => visit d st) st (__depends__ m) in
    if hasModule (modules st) m then st
    else
      let st := addModule st m in
      foldl (fun st c => mkLoaded (modules st) (components st ++ [c]))
        st (__init__ m).

(** [bootstrapModules.forEach(visit)], from empty arrays. *)
Definition visitAll (bootstrapModules : list (DidiModule Component))
  : Loaded Component :=
  foldl (fun st m => visit m st) (mkLoaded [] []) bootstrapModules.

(** [components.forEach(...)]: each component is resolved in turn; what
    one of them throws is thrown on. *)
Definition resolveAll (injector : Injector) (components : list Component)
  : Attempt Error Injector :=
  foldl (fun acc c =>
           match acc with
           | Returned injector => resolve injector c
           | Thrown e => Thrown e
           end)
        (Returned injector) components.

Definition bootstrap (bootstrapModules : list (DidiModule Component))
  : Attempt Error Injector :=
  let st := visitAll bootstrapModules in
  let injector := newInjector (modules st) in
  resolveAll injector (components st).

(** The config module is a new object, without dependencies. *)
Definition configModule (others : list (DidiModule Component))
  : DidiModule Component :=
  mkModule
    (fresh (list_to_set (ident <$> flat_map subModules others)
              : gset positive))
    [] [].

Definition createInjector (CoreModule : DidiModule Component)
    (options : option (Options Component)) : Attempt Error Injector :=
  let options := default (mkOptions None) options in
  let given := default [] (optionModules options) in
  let modules := [configModule (CoreModule :: given); CoreModule] ++ given in
  bootstrap modules.

(** What holds of the two arrays at any time: no module twice, every
    module after the ones it depends on, and the components of the
    modules in the order of the modules. *)
Definition wellLoaded (st : Loaded Component) : Prop :=
  NoDup (ident <$> modules st)
  ∧ (∀ i m, modules st !! i = Some m →
            ∀ d, d ∈ __depends__ m →
                 ident d ∈ ident <$> take i (modules st))
  ∧ components st = modules st ≫= __init__.

(** What visiting the modules [visited] adds to the arrays. *)
Definition grows (st st' : Loaded Component)
    (visited : list (DidiModule Component)) : Prop :=
  wellLoaded st'
  ∧ modules st `prefix_of` modules st'
  ∧ (∀ m, m ∈ visited → ident m ∈ ident <$> modules st')
  ∧ (∀ x, x ∈ modules st' →
          x ∈ modules st ∨ x ∈ flat_map subModules visited).

End Impl.
End Diagram.

(** Three modules: [core] stands alone, [selection] depends on it, and
    [move] depends on both. *)
Module WorkedDiagram.

Definition core : Diagram.DidiModule string :=
  Diagram.mkModule 1 [] ["eventBus"%string; "canvas"%string].

Definition selection : Diagram.DidiModule string :=
  Diagram.mkModule 2 [core] ["selection"%string].

Definition move : Diagram.DidiModule string :=
  Diagram.mkModule 3 [selection; core] ["move"%string].

(** An injector is represented by the components resolved so far; the
    component ["broken"] cannot be instantiated. *)
Definition resolve (injector : list string) (c : string)
  : Diagram.Attempt string (list string) :=
  if String.eqb c "broken" then Diagram.Thrown c
  else Diagram.Returned (injector ++ [c]).

End WorkedDiagram.

(* ===================================================================== *)
(** * Part IV: properties                                                 *)
(* ===================================================================== *)

(** ** JavaScript array primitives *)

Lemma index_0 {A} (arr : list A) : Js.index arr 0 = head arr.
Proof. unfold Js.index. simpl. by destruct arr. Qed.

Lemma index_last {A} (arr : list A) :
  Js.index arr (Js.length arr - 1) = last arr.
Proof.
  unfold Js.index, Js.length.
  destruct arr as [|a arr]; [done|].
  destruct (Z.ltb_spec (Z.of_nat (length (a :: arr)) - 1) 0) as [H|H].
  { simpl in H. lia. }
  replace (Z.to_nat (Z.of_nat (length (a :: arr)) - 1))
    with (length (a :: arr) - 1)%nat by lia.
  rewrite last_lookup. f_equal. lia.
Qed.

(** The slice between the first and the last index is the interior. *)
Lemma slice_interior {A} (a z : A) (mid : list A) :
  Js.slice (a :: mid ++ [z]) (0 + 1) (Js.length (a :: mid ++ [z]) - 1) = mid.
Proof.
  unfold Js.slice, Js.length.
  set (len := Z.of_nat (length (a :: mid ++ [z]))).
  assert (Hlen : len = Z.of_nat (length mid) + 2).
  { unfold len. simpl. rewrite length_app. simpl. lia. }
  destruct (Z.ltb_spec (0 + 1) 0); [lia|].
  destruct (Z.ltb_spec (len - 1) 0); [lia|].
  replace (Z.to_nat (Z.min (0 + 1) len)) with 1%nat by lia.
  replace (Z.to_nat (Z.min (len - 1) len - Z.min (0 + 1) len))
    with (length mid) by lia.
  simpl. rewrite drop_0. by rewrite take_app_length.
Qed.

Lemma slice_single {A} (a : A) :
  Js.slice [a] (0 + 1) (Js.length [a] - 1) = [].
Proof. reflexivity. Qed.

(** A list of at least two elements has a first, a last and an interior. *)
Lemma two_or_more {A} (l : list A) :
  (2 ≤ length l)%nat → ∃ a mid z, l = a :: mid ++ [z].
Proof.
  intros Hlen. destruct l as [|a l]; [simpl in Hlen; lia|].
  destruct (decide (l = [])) as [->|Hne]; [simpl in Hlen; lia|].
  destruct (exists_last Hne) as (mid & z & ->). by exists a, mid, z.
Qed.

(** ** The cropping strategy on values *)

Section CroppingProperties.
Context {num Shape : Type}.
Variable gf : GraphicsFactory num Shape.
Variable isect : Intersection num.

Local Abbreviation getDockingPoint :=
  (CroppingConnectionDocking.getDockingPoint gf isect).
Local Abbreviation getCroppedWaypoints :=
  (CroppingConnectionDocking.getCroppedWaypoints gf isect).
Local Abbreviation _getIntersection :=
  (CroppingConnectionDocking._getIntersection gf isect).
Local Abbreviation dockingToPoint :=
  (@CroppingConnectionDocking.dockingToPoint num).

Lemma or_original (p : Waypoint num) :
  Js.or (original p) (Some p) = Some (anchor p).
Proof. unfold anchor. by destruct (original p). Qed.

Lemma docking_start (ws : list (Waypoint num)) (shape : option Shape) :
  idx (getDockingPoint ws shape true) = 0
  ∧ point (getDockingPoint ws shape true) = head ws.
Proof. split; [done|]. simpl. apply index_0. Qed.

Lemma docking_end (ws : list (Waypoint num)) (shape : option Shape) :
  idx (getDockingPoint ws shape false) = Js.length ws - 1
  ∧ point (getDockingPoint ws shape false) = last ws.
Proof. split; [done|]. simpl. apply index_last. Qed.

Lemma docking_actual (ws : list (Waypoint num)) (shape : option Shape)
    (dockStart : bool) :
  actual (getDockingPoint ws shape dockStart)
  = match _getIntersection shape ws dockStart with
    | Some p => Some (ofPoint p)
    | None => point (getDockingPoint ws shape dockStart)
    end.
Proof.
  unfold CroppingConnectionDocking.getDockingPoint. simpl.
  by destruct (CroppingConnectionDocking._getIntersection _ _ _ _ _).
Qed.

(** Whenever the docking waypoint is defined, so is the actual point. *)
Lemma docking_actual_defined (ws : list (Waypoint num))
    (shape : option Shape) (dockStart : bool) (p : Waypoint num) :
  point (getDockingPoint ws shape dockStart) = Some p →
  ∃ a, actual (getDockingPoint ws shape dockStart) = Some a
       ∧ (original a = None ∨ a = p).
Proof.
  intros Hp. rewrite docking_actual, Hp.
  destruct (_getIntersection _ _ _) as [q|]; eauto.
Qed.

(** What [dockingToPoint] builds from a descriptor with a defined point
    and a defined actual point. *)
Lemma dockingToPoint_defined (d : DockingPointDescriptor num)
    (p a : Waypoint num) :
  point d = Some p → actual d = Some a →
  dockingToPoint d
  = Normal (mkWaypoint (x a) (y a)
                       (Js.or (original a) (Some (anchor p)))).
Proof.
  intros Hp Ha. unfold CroppingConnectionDocking.dockingToPoint.
  rewrite Hp, Ha, or_original. simpl.
  by destruct (x a), (y a).
Qed.

(** For a descriptor computed by [getDockingPoint], the new waypoint has
    the coordinates of the actual point and the anchor of the docking
    waypoint. *)
Lemma dockingToPoint_docking (ws : list (Waypoint num))
    (shape : option Shape) (dockStart : bool) (p : Waypoint num) :
  point (getDockingPoint ws shape dockStart) = Some p →
  ∃ a, actual (getDockingPoint ws shape dockStart) = Some a
       ∧ dockingToPoint (getDockingPoint ws shape dockStart)
         = Normal (mkWaypoint (x a) (y a) (Some (anchor p))).
Proof.
  intros Hp.
  destruct (docking_actual_defined _ _ _ _ Hp) as (a & Ha & Hor).
  exists a. split; [done|].
  rewrite (dockingToPoint_defined _ p a Hp Ha). do 2 f_equal.
  destruct Hor as [Hn | ->]; [by rewrite Hn|].
  unfold anchor. by destruct (original p).
Qed.

(** The shape of the result for two or more waypoints. *)
Lemma crop_two_or_more (cow : ConnectionOrWaypoints num Shape)
    (s t : option Shape) (a z : Waypoint num) (mid : list (Waypoint num)) :
  waypointsOf cow = a :: mid ++ [z] →
  ∃ sa ta,
    actual (getDockingPoint (waypointsOf cow)
              (Js.or s (sourceOf cow)) true) = Some sa
    ∧ actual (getDockingPoint (waypointsOf cow)
                (Js.or t (targetOf cow)) false) = Some ta
    ∧ getCroppedWaypoints cow s t
      = Normal (mkWaypoint (x sa) (y sa) (Some (anchor a))
                :: mid ++ [mkWaypoint (x ta) (y ta) (Some (anchor z))]).
Proof.
  intros Hws.
  set (src := Js.or s (sourceOf cow)). set (tgt := Js.or t (targetOf cow)).
  destruct (docking_start (waypointsOf cow) src) as [Hsi Hsp].
  destruct (docking_end (waypointsOf cow) tgt) as [Hti Htp].
  assert (Hhead : head (waypointsOf cow) = Some a) by by rewrite Hws.
  assert (Hlast : last (waypointsOf cow) = Some z).
  { rewrite Hws, app_comm_cons. apply last_snoc. }
  rewrite Hhead in Hsp. rewrite Hlast in Htp.
  destruct (dockingToPoint_docking _ _ _ _ Hsp) as (sa & Hsa & Hsd).
  destruct (dockingToPoint_docking _ _ _ _ Htp) as (ta & Hta & Htd).
  exists sa, ta. split; [done|]. split; [done|].
  unfold CroppingConnectionDocking.getCroppedWaypoints.
  fold src tgt. cbv zeta. rewrite Hsi, Hti, Hsd, Htd.
  unfold mbind, Completion_bind.
  rewrite Hws, slice_interior. reflexivity.
Qed.

(** The shape of the result for a single waypoint. *)
Lemma crop_single (cow : ConnectionOrWaypoints num Shape)
    (s t : option Shape) (w : Waypoint num) :
  waypointsOf cow = [w] →
  ∃ sa ta,
    actual (getDockingPoint [w] (Js.or s (sourceOf cow)) true) = Some sa
    ∧ actual (getDockingPoint [w] (Js.or t (targetOf cow)) false) = Some ta
    ∧ getCroppedWaypoints cow s t
      = Normal [mkWaypoint (x sa) (y sa) (Some (anchor w));
                mkWaypoint (x ta) (y ta) (Some (anchor w))].
Proof.
  intros Hws.
  set (src := Js.or s (sourceOf cow)). set (tgt := Js.or t (targetOf cow)).
  destruct (docking_start [w] src) as [Hsi Hsp].
  destruct (docking_end [w] tgt) as [Hti Htp].
  change (head [w]) with (Some w) in Hsp.
  change (last [w]) with (Some w) in Htp.
  destruct (dockingToPoint_docking _ _ _ _ Hsp) as (sa & Hsa & Hsd).
  destruct (dockingToPoint_docking _ _ _ _ Htp) as (ta & Hta & Htd).
  exists sa, ta. split; [done|]. split; [done|].
  unfold CroppingConnectionDocking.getCroppedWaypoints.
  fold src tgt. cbv zeta. rewrite Hws, Hsi, Hti, Hsd, Htd.
  unfold mbind, Completion_bind.
  rewrite slice_single. reflexivity.
Qed.

(** No waypoint at all: the source docking has an undefined point, and
    reading its [original] throws. *)
Lemma crop_empty (cow : ConnectionOrWaypoints num Shape)
    (s t : option Shape) :
  waypointsOf cow = [] →
  getCroppedWaypoints cow s t = Throw TypeError.
Proof.
  intros Hws. unfold CroppingConnectionDocking.getCroppedWaypoints.
  rewrite Hws. reflexivity.
Qed.

End CroppingProperties.

Example worked_example :
  CroppingConnectionDocking.getCroppedWaypoints
    Worked.graphicsFactory Worked.intersection
    (AnArray Worked.connector) (Some Worked.Left) (Some Worked.Right)
  = Normal [ptOrig 100 50 (pt 50 50); ptOrig 200 50 (pt 250 50)].
Proof. reflexivity. Qed.

Example worked_example_connection :
  CroppingConnectionDocking.getCroppedWaypoints
    Worked.graphicsFactory Worked.intersection
    (AConnection (mkConnection [pt 50 50; pt 50 200; pt 250 200; pt 250 50]
                    (Some Worked.Left) (Some Worked.Unrendered)))
    None None
  = Normal [ptOrig 100 50 (pt 50 50); pt 50 200; pt 250 200;
            ptOrig 250 50 (pt 250 50)].
Proof. reflexivity. Qed.

(** ** The claims about the cropping strategy *)

Section CroppingClaims.
Context {num Shape : Type}.
Variable gf : GraphicsFactory num Shape.
Variable isect : Intersection num.

Local Abbreviation getDockingPoint :=
  (CroppingConnectionDocking.getDockingPoint gf isect).
Local Abbreviation getCroppedWaypoints :=
  (CroppingConnectionDocking.getCroppedWaypoints gf isect).
Local Abbreviation dockingToPoint :=
  (@CroppingConnectionDocking.dockingToPoint num).

(** C1. For a connector with at least two waypoints, the first point of
    the list returned by [getCroppedWaypoints] has the coordinates of
    [getDockingPoint(waypoints, source, true).actual], and the last point
    has the coordinates of [getDockingPoint(waypoints, target, false).actual],
    where [source] and [target] are the shapes as resolved from the
    arguments or from the connection. *)
Theorem cropped_endpoints_are_docking_actuals
    (cow : ConnectionOrWaypoints num Shape) (s t : option Shape) :
  (2 ≤ length (waypointsOf cow))%nat →
  ∃ r first final sa ta,
    getCroppedWaypoints cow s t = Normal r
    ∧ head r = Some first
    ∧ last r = Some final
    ∧ actual (getDockingPoint (waypointsOf cow)
                (Js.or s (sourceOf cow)) true) = Some sa
    ∧ actual (getDockingPoint (waypointsOf cow)
                (Js.or t (targetOf cow)) false) = Some ta
    ∧ sameCoordinates first sa
    ∧ sameCoordinates final ta.
Proof.
  intros Hlen.
  destruct (two_or_more _ Hlen) as (a & mid & z & Hws).
  destruct (crop_two_or_more gf isect cow s t a z mid Hws)
    as (sa & ta & Hsa & Hta & Hr).
  eexists _, _, _, sa, ta. split; [exact Hr|].
  split; [reflexivity|]. split.
  { rewrite app_comm_cons. apply last_snoc. }
  repeat split; assumption.
Qed.

(** C2. For a waypoint list with at least two points,
    [getDockingPoint(waypoints, shape, dockStart)] returns a descriptor
    with [idx = 0] when [dockStart] and [idx = length - 1] otherwise,
    [point = waypoints[idx]] (which is defined), and [actual] the
    intersection of the shape path and the connection path, computed with
    [dockStart] as the preference, when there is one, and [waypoints[idx]]
    when there is none. *)
Theorem docking_point_descriptor
    (ws : list (Waypoint num)) (shape : option Shape) (dockStart : bool) :
  (2 ≤ length ws)%nat →
  let d := getDockingPoint ws shape dockStart in
  idx d = (if dockStart then 0 else Z.of_nat (length ws) - 1)
  ∧ point d = ws !! Z.to_nat (idx d)
  ∧ is_Some (point d)
  ∧ match isect (getShapePath gf shape) (getConnectionPath gf ws) dockStart
    with
    | Some q => actual d = Some (ofPoint q)
    | None => actual d = ws !! Z.to_nat (idx d)
    end.
Proof.
  intros Hlen d.
  assert (Hidx : idx d = (if dockStart then 0 else Z.of_nat (length ws) - 1))
    by by destruct dockStart.
  assert (Hpoint : point d = ws !! Z.to_nat (idx d)).
  { change (point d) with (Js.index ws (idx d)). unfold Js.index.
    destruct (Z.ltb_spec (idx d) 0) as [Hneg|]; [|done].
    rewrite Hidx in Hneg. destruct dockStart; lia. }
  split; [exact Hidx|]. split; [exact Hpoint|]. split.
  { rewrite Hpoint. apply lookup_lt_is_Some_2.
    rewrite Hidx. destruct dockStart; lia. }
  rewrite <- Hpoint. unfold d. rewrite docking_actual.
  unfold CroppingConnectionDocking._getIntersection,
    CroppingConnectionDocking._getShapePath,
    CroppingConnectionDocking._getConnectionPath.
  by destruct (isect _ _ _).
Qed.

(** C3. For a connector with at least two waypoints the result has at
    least two points (as many as the connector); with exactly two
    waypoints the interior slice is empty and the result consists of the
    source's and the target's actual point, in this order. *)
Theorem cropped_length
    (cow : ConnectionOrWaypoints num Shape) (s t : option Shape) :
  (2 ≤ length (waypointsOf cow))%nat →
  ∃ r,
    getCroppedWaypoints cow s t = Normal r
    ∧ (2 ≤ length r)%nat
    ∧ length r = length (waypointsOf cow)
    ∧ (length (waypointsOf cow) = 2%nat →
       let sourceDocking :=
         getDockingPoint (waypointsOf cow) (Js.or s (sourceOf cow)) true in
       let targetDocking :=
         getDockingPoint (waypointsOf cow) (Js.or t (targetOf cow)) false in
       Js.slice (waypointsOf cow) (idx sourceDocking + 1) (idx targetDocking)
       = []
       ∧ ∃ sa ta first final,
           actual sourceDocking = Some sa
           ∧ actual targetDocking = Some ta
           ∧ r = [first; final]
           ∧ sameCoordinates first sa
           ∧ sameCoordinates final ta).
Proof.
  intros Hlen.
  destruct (two_or_more _ Hlen) as (a & mid & z & Hws).
  destruct (crop_two_or_more gf isect cow s t a z mid Hws)
    as (sa & ta & Hsa & Hta & Hr).
  eexists. split; [exact Hr|].
  assert (Hl : ∀ (u v : Waypoint num), length (u :: mid ++ [v]) = S (S (length mid))).
  { intros u v. simpl. rewrite length_app. simpl. lia. }
  split; [rewrite Hl; lia|]. split; [by rewrite Hws, !Hl|].
  intros Htwo sourceDocking targetDocking.
  assert (mid = []) as ->.
  { rewrite Hws, Hl in Htwo. destruct mid; [done|simpl in Htwo; lia]. }
  split.
  { unfold sourceDocking, targetDocking. rewrite Hws. reflexivity. }
  eexists sa, ta, _, _. repeat split; done.
Qed.

(** C4. Each endpoint of the result carries as [original] the logical
    anchor of the corresponding input endpoint: the input endpoint's
    [original] when it has one, the input endpoint itself otherwise.
    Cropping the result again, for whatever shapes and geometry, returns
    endpoints with the same [original] as after the first crop. *)
Theorem logical_anchor_preserved
    (cow : ConnectionOrWaypoints num Shape) (s t : option Shape) :
  (2 ≤ length (waypointsOf cow))%nat →
  ∃ a z r first final,
    head (waypointsOf cow) = Some a
    ∧ last (waypointsOf cow) = Some z
    ∧ getCroppedWaypoints cow s t = Normal r
    ∧ head r = Some first
    ∧ last r = Some final
    ∧ original first = Some (match original a with Some o => o | None => a end)
    ∧ original final = Some (match original z with Some o => o | None => z end)
    ∧ ∀ (gf' : GraphicsFactory num Shape) (isect' : Intersection num)
        (cow' : ConnectionOrWaypoints num Shape) (s' t' : option Shape),
        waypointsOf cow' = r →
        ∃ r' first' final',
          CroppingConnectionDocking.getCroppedWaypoints gf' isect' cow' s' t'
          = Normal r'
          ∧ head r' = Some first'
          ∧ last r' = Some final'
          ∧ original first' = original first
          ∧ original final' = original final.
Proof.
  intros Hlen.
  destruct (two_or_more _ Hlen) as (a & mid & z & Hws).
  destruct (crop_two_or_more gf isect cow s t a z mid Hws)
    as (sa & ta & Hsa & Hta & Hr).
  assert (Hlast : ∀ (u v : Waypoint num), last (u :: mid ++ [v]) = Some v).
  { intros u v. rewrite app_comm_cons. apply last_snoc. }
  eexists a, z, _, _, _.
  split; [by rewrite Hws|]. split; [by rewrite Hws, Hlast|].
  split; [exact Hr|]. split; [reflexivity|]. split; [apply Hlast|].
  split; [reflexivity|]. split; [reflexivity|].
  intros gf' isect' cow' s' t' Hws'.
  destruct (crop_two_or_more gf' isect' cow' s' t' _ _ mid Hws')
    as (sa' & ta' & _ & _ & Hr').
  eexists _, _, _. split; [exact Hr'|].
  split; [reflexivity|]. split; [apply Hlast|]. done.
Qed.

(** C5. For a connector with N >= 3 waypoints the result is the new
    source waypoint, then the input waypoints at the indices 1 .. N-2,
    unchanged and in order, then the new target waypoint. *)
Theorem interior_preserved
    (cow : ConnectionOrWaypoints num Shape) (s t : option Shape) :
  (3 ≤ length (waypointsOf cow))%nat →
  ∃ a mid z first final r,
    waypointsOf cow = a :: mid ++ [z]
    ∧ length mid = (length (waypointsOf cow) - 2)%nat
    ∧ dockingToPoint
        (getDockingPoint (waypointsOf cow) (Js.or s (sourceOf cow)) true)
      = Normal first
    ∧ dockingToPoint
        (getDockingPoint (waypointsOf cow) (Js.or t (targetOf cow)) false)
      = Normal final
    ∧ getCroppedWaypoints cow s t = Normal r
    ∧ r = [first] ++ mid ++ [final]
    ∧ ∀ i : nat, (1 ≤ i ≤ length (waypointsOf cow) - 2)%nat →
                 r !! i = waypointsOf cow !! i.
Proof.
  intros Hlen.
  destruct (two_or_more (waypointsOf cow)) as (a & mid & z & Hws); [lia|].
  assert (Hmid : length mid = (length (waypointsOf cow) - 2)%nat).
  { rewrite Hws. simpl. rewrite length_app. simpl. lia. }
  destruct (docking_start gf isect (waypointsOf cow) (Js.or s (sourceOf cow)))
    as [_ Hsp].
  destruct (docking_end gf isect (waypointsOf cow) (Js.or t (targetOf cow)))
    as [_ Htp].
  assert (Hh : head (waypointsOf cow) = Some a) by by rewrite Hws.
  assert (Hl : last (waypointsOf cow) = Some z).
  { rewrite Hws, app_comm_cons. apply last_snoc. }
  rewrite Hh in Hsp. rewrite Hl in Htp.
  destruct (dockingToPoint_docking gf isect _ _ _ _ Hsp) as (sa & Hsa & Hsd).
  destruct (dockingToPoint_docking gf isect _ _ _ _ Htp) as (ta & Hta & Htd).
  destruct (crop_two_or_more gf isect cow s t a z mid Hws)
    as (sa' & ta' & Hsa' & Hta' & Hr).
  rewrite Hsa in Hsa'. rewrite Hta in Hta'.
  injection Hsa' as <-. injection Hta' as <-.
  eexists a, mid, z, _, _, _.
  split; [exact Hws|]. split; [exact Hmid|].
  split; [exact Hsd|]. split; [exact Htd|].
  split; [exact Hr|]. split; [reflexivity|].
  intros i Hi. rewrite Hws.
  destruct i as [|i]; [lia|]. simpl.
  rewrite !lookup_app_l by lia. done.
Qed.

End CroppingClaims.

Section FallbackAndInvalidInput.
Context {num Shape : Type}.
Variable gf : GraphicsFactory num Shape.
Variable isect : Intersection num.

Local Abbreviation getDockingPoint :=
  (CroppingConnectionDocking.getDockingPoint gf isect).
Local Abbreviation getCroppedWaypoints :=
  (CroppingConnectionDocking.getCroppedWaypoints gf isect).

(** In the fallback situation the intersection routine returns nothing. *)
Lemma noCrossing_no_intersection
    (ws : list (Waypoint num)) (shape : option Shape) (dockStart : bool) :
  nothingWithoutBoundary isect →
  noCrossing gf isect ws shape dockStart →
  CroppingConnectionDocking._getIntersection gf isect shape ws dockStart
  = None.
Proof.
  intros Hc [Hnb | Hnone]; [|exact Hnone].
  by apply Hc.
Qed.

Lemma fallback_actual
    (ws : list (Waypoint num)) (shape : option Shape) (dockStart : bool) :
  nothingWithoutBoundary isect →
  noCrossing gf isect ws shape dockStart →
  actual (getDockingPoint ws shape dockStart)
  = point (getDockingPoint ws shape dockStart).
Proof.
  intros Hc Hno. rewrite docking_actual.
  by rewrite (noCrossing_no_intersection _ _ _ Hc Hno).
Qed.

(** With its own [original], a raw waypoint is rebuilt as it is. *)
Lemma rebuilt_with_original (p o : Waypoint num) :
  original p = Some o → mkWaypoint (x p) (y p) (Some (anchor p)) = p.
Proof. intros Ho. unfold anchor. rewrite Ho. destruct p; simpl in *; by subst. Qed.

(** C6. Fallback law.  When the shape path is undefined or empty, or the
    intersection routine finds no crossing, [getDockingPoint]'s [actual]
    is the raw waypoint at the docking index.  For a connector with
    waypoints, [getCroppedWaypoints] then raises no error and the cropped
    endpoint lies exactly on the raw waypoint: it has its coordinates,
    its [original] is the raw waypoint's logical anchor, and it equals
    the raw waypoint in every field when that one carries an [original].
    That a shape path without boundary yields no intersection is the
    contract of the intersection routine. *)
Theorem fallback_law
    (cow : ConnectionOrWaypoints num Shape) (s t : option Shape) :
  nothingWithoutBoundary isect →
  waypointsOf cow ≠ [] →
  let ws := waypointsOf cow in
  let source := Js.or s (sourceOf cow) in
  let target := Js.or t (targetOf cow) in
  (∀ shape dockStart,
     noCrossing gf isect ws shape dockStart →
     actual (getDockingPoint ws shape dockStart)
     = Js.index ws (idx (getDockingPoint ws shape dockStart)))
  ∧ ∃ a z r first final,
      head ws = Some a
      ∧ last ws = Some z
      ∧ getCroppedWaypoints cow s t = Normal r
      ∧ head r = Some first
      ∧ last r = Some final
      ∧ (noCrossing gf isect ws source true →
         sameCoordinates first a
         ∧ original first = Some (anchor a)
         ∧ (is_Some (original a) → first = a))
      ∧ (noCrossing gf isect ws target false →
         sameCoordinates final z
         ∧ original final = Some (anchor z)
         ∧ (is_Some (original z) → final = z)).
Proof.
  intros Hc Hne. cbv zeta.
  set (ws := waypointsOf cow) in *.
  set (source := Js.or s (sourceOf cow)).
  set (target := Js.or t (targetOf cow)).
  split.
  { intros shape dockStart Hno. by rewrite fallback_actual. }
  assert (Hends : ∃ a z, head ws = Some a ∧ last ws = Some z
            ∧ (ws = [a] ∧ z = a ∨ ∃ mid, ws = a :: mid ++ [z])).
  { destruct ws as [|a l]; [done|].
    destruct (decide (l = [])) as [->|Hl].
    - exists a, a. eauto.
    - destruct (exists_last Hl) as (mid & z & ->).
      exists a, z. split; [done|]. split; [|eauto].
      rewrite app_comm_cons. apply last_snoc. }
  destruct Hends as (a & z & Hh & Hl & Hshape).
  assert (Hsp : point (getDockingPoint ws source true) = Some a).
  { rewrite <- Hh. apply docking_start. }
  assert (Htp : point (getDockingPoint ws target false) = Some z).
  { rewrite <- Hl. apply docking_end. }
  assert (Hr : ∃ sa ta r first final,
            actual (getDockingPoint ws source true) = Some sa
            ∧ actual (getDockingPoint ws target false) = Some ta
            ∧ getCroppedWaypoints cow s t = Normal r
            ∧ head r = Some first ∧ last r = Some final
            ∧ first = mkWaypoint (x sa) (y sa) (Some (anchor a))
            ∧ final = mkWaypoint (x ta) (y ta) (Some (anchor z))).
  { destruct Hshape as [[Hws ->] | [mid Hws]].
    - destruct (crop_single gf isect cow s t a Hws)
        as (sa & ta & Hsa & Hta & ->).
      fold source target in Hsa, Hta. rewrite Hws.
      eexists sa, ta, _, _, _. repeat split; done.
    - destruct (crop_two_or_more gf isect cow s t a z mid Hws)
        as (sa & ta & Hsa & Hta & ->).
      eexists sa, ta, _, _, _. repeat split; try done.
      rewrite app_comm_cons. apply last_snoc. }
  destruct Hr as (sa & ta & r & first & final & Hsa & Hta & Hr & Hf & Hz
                  & -> & ->).
  eexists a, z, r, _, _.
  split; [exact Hh|]. split; [exact Hl|]. split; [exact Hr|].
  split; [exact Hf|]. split; [exact Hz|].
  split; intros Hno.
  - rewrite (fallback_actual _ _ _ Hc Hno), Hsp in Hsa. injection Hsa as <-.
    split; [done|]. split; [done|].
    intros [o Ho]. by apply (rebuilt_with_original a o).
  - rewrite (fallback_actual _ _ _ Hc Hno), Htp in Hta. injection Hta as <-.
    split; [done|]. split; [done|].
    intros [o Ho]. by apply (rebuilt_with_original z o).
Qed.

(** C7, as the code has it.  Neither operation validates its input.
    [getCroppedWaypoints] fails exactly when there is no waypoint at all,
    with the [TypeError] of reading [original] off the undefined docking
    point; a single waypoint yields a two-point result; missing endpoint
    shapes are handed to the graphics factory as they are and cause no
    error.  [getDockingPoint] returns a descriptor for every input: for a
    single waypoint it docks at index 0 at either end, for none its point
    and, without an intersection, its actual point are undefined. *)
Theorem invalid_input_unchecked
    (cow : ConnectionOrWaypoints num Shape) (s t : option Shape) :
  (getCroppedWaypoints cow s t = Throw TypeError ↔ waypointsOf cow = [])
  ∧ (waypointsOf cow ≠ [] →
     ∃ r, getCroppedWaypoints cow s t = Normal r ∧ (2 ≤ length r)%nat)
  ∧ (∀ w, waypointsOf cow = [w] →
          ∃ first final, getCroppedWaypoints cow s t = Normal [first; final])
  ∧ (∀ w shape dockStart,
       idx (getDockingPoint [w] shape dockStart) = 0
       ∧ point (getDockingPoint [w] shape dockStart) = Some w)
  ∧ (∀ shape dockStart,
       point (getDockingPoint [] shape dockStart) = None
       ∧ idx (getDockingPoint [] shape dockStart)
         = (if dockStart then 0 else -1)
       ∧ actual (getDockingPoint [] shape dockStart)
         = ofPoint <$> isect (getShapePath gf shape)
                             (getConnectionPath gf []) dockStart).
Proof.
  assert (Hcases : waypointsOf cow = []
            ∨ (∃ w, waypointsOf cow = [w])
            ∨ ∃ a mid z, waypointsOf cow = a :: mid ++ [z]).
  { destruct (waypointsOf cow) as [|a l]; [by left|right].
    destruct (decide (l = [])) as [->|Hl]; [left; eauto|right].
    destruct (exists_last Hl) as (mid & z & ->). eauto. }
  assert (Hok : waypointsOf cow ≠ [] →
            ∃ r, getCroppedWaypoints cow s t = Normal r ∧ (2 ≤ length r)%nat).
  { intros Hne. destruct Hcases as [He | [[w Hw] | (a & mid & z & Hws)]].
    - done.
    - destruct (crop_single gf isect cow s t w Hw) as (? & ? & _ & _ & ->).
      eexists. split; [done|]. simpl. lia.
    - destruct (crop_two_or_more gf isect cow s t a z mid Hws)
        as (? & ? & _ & _ & ->).
      eexists. split; [done|]. simpl. rewrite length_app. simpl. lia. }
  split.
  { split.
    - intros Hthrow. destruct (decide (waypointsOf cow = [])) as [|Hne]; [done|].
      destruct (Hok Hne) as (r & Hr & _). congruence.
    - apply crop_empty. }
  split; [exact Hok|]. split.
  { intros w Hw.
    destruct (crop_single gf isect cow s t w Hw) as (? & ? & _ & _ & ->).
    eauto. }
  split.
  { intros w shape dockStart. by destruct dockStart. }
  intros shape dockStart. split; [by destruct dockStart|].
  split; [by destruct dockStart|].
  rewrite docking_actual.
  unfold CroppingConnectionDocking._getIntersection,
    CroppingConnectionDocking._getShapePath,
    CroppingConnectionDocking._getConnectionPath.
  destruct (isect _ _ _); [done|]. by destruct dockStart.
Qed.

(** C10. A single waypoint: no error is raised, both dockings select
    index 0, the interior slice is empty, and the result has two entries,
    with the coordinates of the source's and of the target's actual
    docking point (the waypoint itself where no intersection is found),
    each carrying as [original] the waypoint's [original] if it has one,
    the waypoint otherwise. *)
Theorem single_waypoint
    (cow : ConnectionOrWaypoints num Shape) (s t : option Shape)
    (w : Waypoint num) :
  waypointsOf cow = [w] →
  let sourceDocking := getDockingPoint [w] (Js.or s (sourceOf cow)) true in
  let targetDocking := getDockingPoint [w] (Js.or t (targetOf cow)) false in
  idx sourceDocking = 0
  ∧ idx targetDocking = 0
  ∧ Js.slice [w] (idx sourceDocking + 1) (idx targetDocking) = []
  ∧ ∃ sa ta first final,
      actual sourceDocking = Some sa
      ∧ actual targetDocking = Some ta
      ∧ getCroppedWaypoints cow s t = Normal [first; final]
      ∧ sameCoordinates first sa
      ∧ sameCoordinates final ta
      ∧ original first
        = Some (match original w with Some o => o | None => w end)
      ∧ original final
        = Some (match original w with Some o => o | None => w end)
      ∧ (CroppingConnectionDocking._getIntersection gf isect
           (Js.or s (sourceOf cow)) [w] true = None → sa = w)
      ∧ (CroppingConnectionDocking._getIntersection gf isect
           (Js.or t (targetOf cow)) [w] false = None → ta = w).
Proof.
  intros Hws sourceDocking targetDocking.
  split; [done|]. split; [done|]. split; [done|].
  destruct (crop_single gf isect cow s t w Hws)
    as (sa & ta & Hsa & Hta & Hr).
  eexists sa, ta, _, _.
  split; [exact Hsa|]. split; [exact Hta|]. split; [exact Hr|].
  split; [done|]. split; [done|]. split; [done|]. split; [done|].
  split; intros Hnone.
  - rewrite docking_actual, Hnone in Hsa.
    change (Some w = Some sa) in Hsa. congruence.
  - rewrite docking_actual, Hnone in Hta.
    change (Some w = Some ta) in Hta. congruence.
Qed.

End FallbackAndInvalidInput.

(** ** The identity strategy *)

(** C9. The base [ConnectionDocking]: [getDockingPoint] returns
    [{ point: waypoints[idx], actual: waypoints[idx], idx }] with
    [idx = 0] when [dockStart] and [idx = length - 1] otherwise, whatever
    the shape; [getCroppedWaypoints] returns the waypoint sequence of its
    argument unchanged. *)
Theorem identity_docking {num Shape : Type}
    (ws : list (Waypoint num)) (shape : option Shape) (dockStart : bool) :
  let d := ConnectionDocking.getDockingPoint ws shape dockStart in
  idx d = (if dockStart then 0 else Z.of_nat (length ws) - 1)
  ∧ point d = Js.index ws (idx d)
  ∧ actual d = Js.index ws (idx d)
  ∧ point d = (if dockStart then head ws else last ws)
  ∧ (∀ shape' : option Shape,
       ConnectionDocking.getDockingPoint ws shape' dockStart = d)
  ∧ (∀ (cow : ConnectionOrWaypoints num Shape) (s t : option Shape),
       ConnectionDocking.getCroppedWaypoints cow s t = waypointsOf cow)
  ∧ (∀ (c : Connection num Shape) (s t : option Shape),
       ConnectionDocking.getCroppedWaypoints (AConnection c) s t
       = waypoints c)
  ∧ (∀ (s t : option Shape),
       ConnectionDocking.getCroppedWaypoints (AnArray ws) s t = ws).
Proof.
  intros d. split; [by destruct dockStart|].
  split; [done|]. split; [done|]. split.
  { destruct dockStart; [apply index_0 | apply index_last]. }
  repeat split.
Qed.

(** ** The cropping strategy over the store *)

Section StoreSteps.
Context {num Shape : Type}.

Local Abbreviation Store := (gmap positive (OnStore.Cell num Shape)).
Local Abbreviation Run := (@OnStore.Run num Shape).

Lemma run_bind_done {A B} (m : Run A) (k : A → Run B) (h h' : Store) (a : A) :
  m h = OnStore.Done h' a → (m ≫= k) h = k a h'.
Proof.
  intros Hm. unfold mbind, OnStore.Run_bind, OnStore.bind. by rewrite Hm.
Qed.

Lemma run_bind_raised {A B} (m : Run A) (k : A → Run B) (h h' : Store)
    (e : JsError) :
  m h = OnStore.Raised h' e → (m ≫= k) h = OnStore.Raised h' e.
Proof.
  intros Hm. unfold mbind, OnStore.Run_bind, OnStore.bind. by rewrite Hm.
Qed.

Lemma readCell_run (h : Store) l c :
  h !! l = Some c → OnStore.readCell l h = OnStore.Done h c.
Proof. intros Hl. unfold OnStore.readCell. by rewrite Hl. Qed.

Lemma readArray_run (h : Store) l es :
  h !! l = Some (OnStore.ArrayObj es) →
  OnStore.readArray l h = OnStore.Done h es.
Proof.
  intros Hl. unfold OnStore.readArray.
  by rewrite (run_bind_done _ _ _ _ _ (readCell_run _ _ _ Hl)).
Qed.

Lemma readPoint_run (h : Store) l a b o :
  h !! l = Some (OnStore.PointObj a b o) →
  OnStore.readPoint l h = OnStore.Done h (a, b, o).
Proof.
  intros Hl. unfold OnStore.readPoint.
  by rewrite (run_bind_done _ _ _ _ _ (readCell_run _ _ _ Hl)).
Qed.

Lemma write_run (h : Store) l c c' :
  h !! l = Some c → OnStore.write l c' h = OnStore.Done (<[l := c']> h) ().
Proof. intros Hl. unfold OnStore.write. by rewrite Hl. Qed.

Lemma fresh_unused (h : Store) : h !! fresh (dom h) = None.
Proof. apply not_elem_of_dom, is_fresh. Qed.

(** *** Stores that grow *)

Lemma untouched_refl (h : Store) : OnStore.untouched h h.
Proof. by intros l c. Qed.

Lemma untouched_trans (h1 h2 h3 : Store) :
  OnStore.untouched h1 h2 → OnStore.untouched h2 h3 →
  OnStore.untouched h1 h3.
Proof. intros H12 H23 l c Hl. by apply H23, H12. Qed.

Lemma untouched_alloc (h : Store) c :
  OnStore.untouched h (<[fresh (dom h) := c]> h).
Proof.
  intros l c' Hl. rewrite lookup_insert_ne; [done|].
  intros <-. by rewrite fresh_unused in Hl.
Qed.

(** Writing to an object that [h0] does not have leaves [h0] untouched. *)
Lemma untouched_write_outside (h0 h : Store) l c :
  OnStore.untouched h0 h → h0 !! l = None →
  OnStore.untouched h0 (<[l := c]> h).
Proof.
  intros Hu Hl l' c' Hl'. rewrite lookup_insert_ne; [by apply Hu|].
  intros <-. congruence.
Qed.

Lemma untouched_unused (h h' : Store) l :
  OnStore.untouched h h' → h' !! l = None → h !! l = None.
Proof.
  intros Hu Hl. destruct (h !! l) as [c|] eqn:E; [|done].
  apply Hu in E. congruence.
Qed.

Lemma untouched_pointsKept (h h' : Store) :
  OnStore.untouched h h' → OnStore.pointsKept h h'.
Proof. intros Hu l a b o. apply Hu. Qed.

(** Updating an array in place keeps every point object. *)
Lemma pointsKept_write_array (h : Store) l es es' :
  h !! l = Some (OnStore.ArrayObj es) →
  OnStore.pointsKept h (<[l := OnStore.ArrayObj es']> h).
Proof.
  intros Hl l' a b o Hl'. rewrite lookup_insert_ne; [done|].
  intros <-. congruence.
Qed.

(** *** Representation is stable *)

Lemma reprPoint_kept (h h' : Store) l (w : Waypoint num) :
  OnStore.pointsKept h h' →
  OnStore.reprPoint h l w → OnStore.reprPoint h' l w.
Proof.
  intros Hk Hr. induction Hr as [l a b Hl | l a b lo wo Hl _ IH].
  - apply OnStore.repr_plain. by apply Hk.
  - eapply OnStore.repr_original; [by apply Hk | exact IH].
Qed.

Lemma reprPoints_kept (h h' : Store) (es : list positive)
    (ws : list (Waypoint num)) :
  OnStore.pointsKept h h' →
  Forall2 (OnStore.reprPoint h) es ws →
  Forall2 (OnStore.reprPoint h') es ws.
Proof.
  intros Hk HF. eapply Forall2_impl; [exact HF|].
  intros l w. by apply reprPoint_kept.
Qed.

Lemma reprOption_kept (h h' : Store) (o : option positive)
    (ow : option (Waypoint num)) :
  OnStore.pointsKept h h' →
  option_Forall2 (OnStore.reprPoint h) o ow →
  option_Forall2 (OnStore.reprPoint h') o ow.
Proof.
  intros Hk [l w Hr|]; constructor. by eapply reprPoint_kept.
Qed.

Lemma reprArray_untouched (h h' : Store) a (ws : list (Waypoint num)) :
  OnStore.untouched h h' →
  OnStore.reprArray h a ws → OnStore.reprArray h' a ws.
Proof.
  intros Hu (es & Ha & Hes). exists es. split; [by apply Hu|].
  eapply reprPoints_kept; [|exact Hes]. by apply untouched_pointsKept.
Qed.

Lemma reprDocking_kept (h h' : Store) d (dv : DockingPointDescriptor num) :
  OnStore.pointsKept h h' →
  OnStore.reprDocking h d dv → OnStore.reprDocking h' d dv.
Proof.
  intros Hk (Hp & Ha & Hi). repeat split; [| |done];
    by eapply reprOption_kept.
Qed.

Lemma reprInput_untouched (h h' : Store) l
    (cow : ConnectionOrWaypoints num Shape) :
  OnStore.untouched h h' →
  OnStore.reprInput h l cow → OnStore.reprInput h' l cow.
Proof.
  intros Hu. destruct cow as [c|ws]; simpl.
  - intros (a & Hl & Ha). exists a. split; [by apply Hu|].
    by eapply reprArray_untouched.
  - by apply reprArray_untouched.
Qed.

(** A represented point object, its fields unfolded, and back. *)
Lemma reprPoint_fields (h : Store) l (w : Waypoint num) :
  OnStore.reprPoint h l w ↔
  ∃ o, h !! l = Some (OnStore.PointObj (x w) (y w) o)
       ∧ option_Forall2 (OnStore.reprPoint h) o (original w).
Proof.
  split.
  - intros [l' a b Hl | l' a b lo wo Hl Hlo]; eexists; split; try exact Hl;
      by constructor.
  - intros (o & Hl & Ho). destruct w as [a b ow]. simpl in *.
    destruct Ho as [lo wo Hlo|].
    + by eapply OnStore.repr_original.
    + by apply OnStore.repr_plain.
Qed.

Lemma or_Forall2 {A B} (R : A → B → Prop) (a b : option A) (a' b' : option B) :
  option_Forall2 R a a' → option_Forall2 R b b' →
  option_Forall2 R (Js.or a b) (Js.or a' b').
Proof. intros [u v Huv|] Hb; [by constructor|exact Hb]. Qed.

Lemma index_Forall2 {A B} (R : A → B → Prop) (es : list A) (ws : list B)
    (i : Z) :
  Forall2 R es ws → option_Forall2 R (Js.index es i) (Js.index ws i).
Proof.
  intros HF. unfold Js.index. destruct (i <? 0); [constructor|].
  destruct (es !! Z.to_nat i) as [e|] eqn:Ee.
  - destruct (Forall2_lookup_l _ _ _ _ _ HF Ee) as (w & -> & Hew).
    by constructor.
  - apply lookup_ge_None in Ee. rewrite (Forall2_length _ _ _ HF) in Ee.
    apply lookup_ge_None in Ee. rewrite Ee. constructor.
Qed.

Lemma length_Forall2 {A B} (R : A → B → Prop) (es : list A) (ws : list B) :
  Forall2 R es ws → Js.length es = Js.length ws.
Proof. intros HF. unfold Js.length. by rewrite (Forall2_length _ _ _ HF). Qed.

Lemma slice_Forall2 {A B} (R : A → B → Prop) (es : list A) (ws : list B)
    (i j : Z) :
  Forall2 R es ws → Forall2 R (Js.slice es i j) (Js.slice ws i j).
Proof.
  intros HF. unfold Js.slice. rewrite (length_Forall2 _ _ _ HF).
  by apply Forall2_take, Forall2_drop.
Qed.

End StoreSteps.

(** *** What a run leaves untouched *)

Section StoreFrame.
Context {num Shape : Type}.
Variable gfS : @OnStore.GraphicsFactory num Shape.
Variable isect : Intersection num.

Local Abbreviation Store := (gmap positive (OnStore.Cell num Shape)).
Local Abbreviation Run := (@OnStore.Run num Shape).

Lemma keeps_ret {A} (h0 : Store) (a : A) (Q : A → Prop) :
  Q a → OnStore.keeps h0 (mret a) Q.
Proof. intros Hq h Hu. by split. Qed.

Lemma keeps_raise {A} (h0 : Store) (e : JsError) (Q : A → Prop) :
  OnStore.keeps h0 (OnStore.raise e) Q.
Proof. by intros h Hu. Qed.

Lemma keeps_stuck {A} (h0 : Store) (Q : A → Prop) :
  OnStore.keeps h0 OnStore.stuck Q.
Proof. by intros h Hu. Qed.

Lemma keeps_bind {A B} (h0 : Store) (m : Run A) (k : A → Run B)
    (Q : A → Prop) (R : B → Prop) :
  OnStore.keeps h0 m Q →
  (∀ a, Q a → OnStore.keeps h0 (k a) R) →
  OnStore.keeps h0 (m ≫= k) R.
Proof.
  intros Hm Hk h Hu. specialize (Hm h Hu).
  unfold mbind, OnStore.Run_bind, OnStore.bind.
  destruct (m h) as [h1 a|h1 e|]; [|done|done].
  destruct Hm as [Hu1 Hq]. by apply Hk.
Qed.

(** A new object is none of the objects of [h0]. *)
Lemma keeps_alloc (h0 : Store) c :
  OnStore.keeps h0 (OnStore.alloc c) (λ l, h0 !! l = None).
Proof.
  intros h Hu. simpl. split.
  - eapply untouched_trans; [exact Hu | apply untouched_alloc].
  - eapply untouched_unused; [exact Hu | apply fresh_unused].
Qed.

Lemma keeps_readCell (h0 : Store) l :
  OnStore.keeps h0 (OnStore.readCell l) (λ _, True).
Proof. intros h Hu. unfold OnStore.readCell. by destruct (h !! l). Qed.

Lemma keeps_readArray (h0 : Store) l :
  OnStore.keeps h0 (OnStore.readArray l) (λ _, True).
Proof.
  eapply keeps_bind; [apply keeps_readCell|].
  intros [] _; try apply keeps_stuck. by apply keeps_ret.
Qed.

Lemma keeps_readPoint (h0 : Store) l :
  OnStore.keeps h0 (OnStore.readPoint l) (λ _, True).
Proof.
  eapply keeps_bind; [apply keeps_readCell|].
  intros [] _; try apply keeps_stuck. by apply keeps_ret.
Qed.

(** Writing is harmless when the object written to is not one of [h0]. *)
Lemma keeps_write (h0 : Store) l c :
  h0 !! l = None → OnStore.keeps h0 (OnStore.write l c) (λ _, True).
Proof.
  intros Hl h Hu. unfold OnStore.write. destruct (h !! l); [|done].
  split; [|done]. by apply untouched_write_outside.
Qed.

Lemma keeps_assign (h0 : Store) l src :
  h0 !! l = None → OnStore.keeps h0 (OnStore.assign l src) (λ _, True).
Proof.
  intros Hl. destruct src as [sl|]; simpl; [|by apply keeps_ret].
  eapply keeps_bind; [apply keeps_readPoint|]. intros [[sx sy] so] _.
  eapply keeps_bind; [apply keeps_readPoint|]. intros [[tx ty] to] _.
  eapply keeps_bind; [by apply keeps_write|]. intros _ _.
  by apply keeps_ret.
Qed.

Lemma keeps_slice (h0 : Store) a (i j : Z) :
  OnStore.keeps h0 (OnStore.slice a i j) (λ l, h0 !! l = None).
Proof.
  eapply keeps_bind; [apply keeps_readArray|]. intros es _.
  apply keeps_alloc.
Qed.

Lemma keeps_unshift (h0 : Store) a v :
  h0 !! a = None → OnStore.keeps h0 (OnStore.unshift a v) (λ _, True).
Proof.
  intros Ha. eapply keeps_bind; [apply keeps_readArray|]. intros es _.
  by apply keeps_write.
Qed.

Lemma keeps_push (h0 : Store) a v :
  h0 !! a = None → OnStore.keeps h0 (OnStore.push a v) (λ _, True).
Proof.
  intros Ha. eapply keeps_bind; [apply keeps_readArray|]. intros es _.
  by apply keeps_write.
Qed.

Lemma keeps_dockingToPoint (h0 : Store) d :
  OnStore.keeps h0 (OnStore.dockingToPoint d) (λ _, True).
Proof.
  unfold OnStore.dockingToPoint.
  destruct (OnStore.pointRef d) as [p|]; [|apply keeps_raise].
  eapply keeps_bind; [apply keeps_readPoint|]. intros [[a b] o] _.
  eapply keeps_bind; [apply keeps_alloc|]. intros l Hl.
  by apply keeps_assign.
Qed.

Lemma keeps__getIntersection (h0 : Store) shape a takeFirst :
  OnStore.keeps h0 (OnStore._getIntersection gfS isect shape a takeFirst)
    (λ _, True).
Proof.
  intros h Hu. unfold OnStore._getIntersection.
  destruct (isect _ _ _) as [q|]; [|by split].
  revert h Hu. change (OnStore.keeps h0
    (l ← OnStore.alloc (OnStore.PointObj (Some (px q)) (Some (py q)) None);
     mret (Some l)) (λ _, True)).
  eapply keeps_bind; [apply keeps_alloc|]. intros l _. by apply keeps_ret.
Qed.

Lemma keeps_getDockingPoint (h0 : Store) a shape dockStart :
  OnStore.keeps h0 (OnStore.getDockingPoint gfS isect a shape dockStart)
    (λ _, True).
Proof.
  eapply keeps_bind; [apply keeps_readArray|]. intros es _.
  eapply keeps_bind; [apply keeps__getIntersection|]. intros c _.
  by apply keeps_ret.
Qed.

Lemma keeps_getCroppedWaypoints (h0 : Store) cow s t :
  OnStore.keeps h0 (OnStore.getCroppedWaypoints gfS isect cow s t)
    (λ _, True).
Proof.
  eapply keeps_bind; [apply keeps_readCell|]. intros c _. cbv zeta.
  eapply keeps_bind; [apply keeps_getDockingPoint|]. intros sd _.
  eapply keeps_bind; [apply keeps_getDockingPoint|]. intros td _.
  eapply keeps_bind; [apply keeps_slice|]. intros cw Hcw. simpl in Hcw.
  eapply keeps_bind; [apply keeps_dockingToPoint|]. intros first _.
  eapply keeps_bind; [by apply keeps_unshift|]. intros _ _.
  eapply keeps_bind; [apply keeps_dockingToPoint|]. intros final _.
  eapply keeps_bind; [by apply keeps_push|]. intros _ _.
  by apply keeps_ret.
Qed.

(** Whatever the store and the outcome, a run that is not stuck leaves
    every object of the initial store untouched. *)
Lemma keeps_final {A} (m : Run A) (h h' : Store) :
  OnStore.keeps h m (λ _, True) →
  OnStore.finalStore (m h) = Some h' → OnStore.untouched h h'.
Proof.
  intros Hk Hf. specialize (Hk h (untouched_refl h)).
  destruct (m h); simpl in Hf; simplify_eq; [by destruct Hk | done].
Qed.

End StoreFrame.

Section StoreRefinement.
Context {num Shape : Type}.
Variable gfS : @OnStore.GraphicsFactory num Shape.
Variable gf : GraphicsFactory num Shape.
Variable isect : Intersection num.
Hypothesis Hagrees : agrees gfS gf.

Local Abbreviation Store := (gmap positive (OnStore.Cell num Shape)).

(** [getDockingPoint] over the store: it returns, touches nothing, and
    its descriptor denotes the one computed on values. *)
Lemma getDockingPoint_refines (h : Store) a (ws : list (Waypoint num))
    (shape : option Shape) (dockStart : bool) :
  OnStore.reprArray h a ws →
  ∃ h' d,
    OnStore.getDockingPoint gfS isect a shape dockStart h = OnStore.Done h' d
    ∧ OnStore.untouched h h'
    ∧ OnStore.reprDocking h' d
        (CroppingConnectionDocking.getDockingPoint gf isect ws shape dockStart).
Proof.
  intros Hrepr. pose proof Hrepr as (es & Ha & Hes).
  destruct Hagrees as [Hshape Hconn].
  unfold OnStore.getDockingPoint.
  rewrite (run_bind_done _ _ _ _ _ (readArray_run _ _ _ Ha)).
  unfold mbind at 1, OnStore.Run_bind, OnStore.bind, OnStore._getIntersection.
  unfold CroppingConnectionDocking.getDockingPoint,
    CroppingConnectionDocking._getIntersection,
    CroppingConnectionDocking._getShapePath,
    CroppingConnectionDocking._getConnectionPath.
  rewrite Hshape, (Hconn _ _ _ Hrepr), (length_Forall2 _ _ _ Hes).
  set (i := if dockStart then 0 else Js.length ws - 1).
  destruct (isect _ _ _) as [q|]; simpl.
  - eexists _, _. split; [reflexivity|].
    split; [apply untouched_alloc|].
    split; simpl; [|split; [|done]].
    + eapply reprOption_kept; [|by apply index_Forall2].
      apply untouched_pointsKept, untouched_alloc.
    + constructor. apply OnStore.repr_plain. apply lookup_insert_eq.
  - eexists _, _. split; [reflexivity|].
    split; [apply untouched_refl|].
    split; simpl; [|split; [|done]]; by apply index_Forall2.
Qed.

(** [dockingToPoint] over the store: it throws when the value-level one
    throws; otherwise it returns a new object that denotes the value-level
    result and touches nothing. *)
Lemma dockingToPoint_refines (h : Store) d (dv : DockingPointDescriptor num) :
  OnStore.reprDocking h d dv →
  match CroppingConnectionDocking.dockingToPoint dv with
  | Normal w =>
      ∃ h' l,
        OnStore.dockingToPoint d h = OnStore.Done h' l
        ∧ OnStore.untouched h h'
        ∧ OnStore.reprPoint h' l w
  | Throw e => OnStore.dockingToPoint d h = OnStore.Raised h e
  end.
Proof.
  intros (Hp & Ha & _).
  unfold CroppingConnectionDocking.dockingToPoint, OnStore.dockingToPoint.
  destruct Hp as [p pw Hp|]; [|reflexivity].
  apply reprPoint_fields in Hp as Hf. destruct Hf as (o & Hlp & Ho).
  rewrite (run_bind_done _ _ _ _ _ (readPoint_run _ _ _ _ _ Hlp)).
  unfold mbind at 1, OnStore.Run_bind, OnStore.bind, OnStore.alloc.
  set (l := fresh (dom h)).
  set (lit := OnStore.PointObj None None (Js.or o (Some p))).
  assert (Hfresh : h !! l = None) by apply fresh_unused.
  assert (Hu : OnStore.untouched h (<[l := lit]> h)) by apply untouched_alloc.
  assert (Hanchor : option_Forall2 (OnStore.reprPoint h)
                      (Js.or o (Some p)) (Js.or (original pw) (Some pw))).
  { apply or_Forall2; [exact Ho | by constructor]. }
  destruct Ha as [sl sw Hs|]; simpl.
  - apply reprPoint_fields in Hs as Hf. destruct Hf as (so & Hls & Hso).
    assert (Hls' : <[l := lit]> h !! sl
                   = Some (OnStore.PointObj (x sw) (y sw) so))
      by by apply Hu.
    rewrite (run_bind_done _ _ _ _ _ (readPoint_run _ _ _ _ _ Hls')).
    assert (Hll : <[l := lit]> h !! l = Some lit) by apply lookup_insert_eq.
    rewrite (run_bind_done _ _ _ _ _ (readPoint_run _ _ _ _ _ Hll)).
    rewrite (run_bind_done _ _ _ _ _ (write_run _ _ _ _ Hll)).
    rewrite insert_insert_eq.
    eexists _, l. split; [reflexivity|].
    split; [apply untouched_alloc|].
    apply reprPoint_fields. eexists. split; [apply lookup_insert_eq|].
    simpl. eapply reprOption_kept.
    { apply untouched_pointsKept, untouched_alloc. }
    apply or_Forall2; [exact Hso | exact Hanchor].
  - eexists _, l. split; [reflexivity|]. split; [exact Hu|].
    apply reprPoint_fields. eexists. split; [apply lookup_insert_eq|].
    simpl. eapply reprOption_kept; [|exact Hanchor].
    by apply untouched_pointsKept.
Qed.

Lemma slice_run (h : Store) a es (i j : Z) :
  h !! a = Some (OnStore.ArrayObj es) →
  OnStore.slice a i j h
  = OnStore.Done (<[fresh (dom h) := OnStore.ArrayObj (Js.slice es i j)]> h)
                 (fresh (dom h)).
Proof.
  intros Ha. unfold OnStore.slice.
  by rewrite (run_bind_done _ _ _ _ _ (readArray_run _ _ _ Ha)).
Qed.

Lemma unshift_run (h : Store) a es v :
  h !! a = Some (OnStore.ArrayObj es) →
  OnStore.unshift a v h
  = OnStore.Done (<[a := OnStore.ArrayObj (v :: es)]> h) ().
Proof.
  intros Ha. unfold OnStore.unshift.
  rewrite (run_bind_done _ _ _ _ _ (readArray_run _ _ _ Ha)).
  by rewrite (write_run _ _ _ _ Ha).
Qed.

Lemma push_run (h : Store) a es v :
  h !! a = Some (OnStore.ArrayObj es) →
  OnStore.push a v h
  = OnStore.Done (<[a := OnStore.ArrayObj (es ++ [v])]> h) ().
Proof.
  intros Ha. unfold OnStore.push.
  rewrite (run_bind_done _ _ _ _ _ (readArray_run _ _ _ Ha)).
  by rewrite (write_run _ _ _ _ Ha).
Qed.

(** [getCroppedWaypoints] over the store: it does not get stuck, every
    object of the initial store is untouched afterwards, and its outcome
    denotes the value-level outcome. *)
Lemma getCroppedWaypoints_refines (h : Store) cow
    (cowv : ConnectionOrWaypoints num Shape) (s t : option Shape) :
  OnStore.reprInput h cow cowv →
  ∃ o h',
    OnStore.getCroppedWaypoints gfS isect cow s t h = o
    ∧ OnStore.finalStore o = Some h'
    ∧ OnStore.untouched h h'
    ∧ OnStore.reprOutcome OnStore.reprArray o
        (CroppingConnectionDocking.getCroppedWaypoints gf isect cowv s t).
Proof.
  intros Hin.
  set (ws := waypointsOf cowv).
  assert (Hres : ∃ c a,
            h !! cow = Some c
            ∧ OnStore.reprArray h a ws
            ∧ match c with OnStore.ConnectionObj w _ _ => w | _ => cow end = a
            ∧ match c with OnStore.ConnectionObj _ s' _ => s' | _ => None end
              = sourceOf cowv
            ∧ match c with OnStore.ConnectionObj _ _ t' => t' | _ => None end
              = targetOf cowv).
  { destruct cowv as [c|w]; simpl in Hin.
    - destruct Hin as (a & Hl & Ha). eexists _, a. by split; [exact Hl|].
    - pose proof Hin as (es & Hl & _). eexists _, cow. by split; [exact Hl|]. }
  destruct Hres as (c & a & Hcow & Ha & Hwa & Hsrc & Htgt).
  unfold OnStore.getCroppedWaypoints,
    CroppingConnectionDocking.getCroppedWaypoints.
  rewrite (run_bind_done _ _ _ _ _ (readCell_run _ _ _ Hcow)).
  cbv zeta. rewrite Hwa, Hsrc, Htgt. fold ws.
  set (src := Js.or s (sourceOf cowv)). set (tgt := Js.or t (targetOf cowv)).
  set (sdv := CroppingConnectionDocking.getDockingPoint gf isect ws src true).
  set (tdv := CroppingConnectionDocking.getDockingPoint gf isect ws tgt false).
  destruct (getDockingPoint_refines h a ws src true Ha)
    as (h1 & d1 & Hrun1 & Hu1 & Hd1).
  rewrite (run_bind_done _ _ _ _ _ Hrun1).
  assert (Ha1 : OnStore.reprArray h1 a ws) by by eapply reprArray_untouched.
  destruct (getDockingPoint_refines h1 a ws tgt false Ha1)
    as (h2 & d2 & Hrun2 & Hu2 & Hd2).
  rewrite (run_bind_done _ _ _ _ _ Hrun2).
  fold sdv in Hd1. fold tdv in Hd2.
  assert (Ha2 : OnStore.reprArray h2 a ws) by by eapply reprArray_untouched.
  destruct Ha2 as (es & Hes & HF).
  rewrite (run_bind_done _ _ _ _ _ (slice_run _ _ _ _ _ Hes)).
  destruct Hd1 as (Hd1p & Hd1a & Hd1i). destruct Hd2 as (Hd2p & Hd2a & Hd2i).
  rewrite Hd1i, Hd2i.
  set (sl := Js.slice es (idx sdv + 1) (idx tdv)).
  set (cw := fresh (dom h2)).
  set (h3 := <[cw := OnStore.ArrayObj sl]> h2).
  assert (U02 : OnStore.untouched h h2) by by eapply untouched_trans.
  assert (Hcw2 : h2 !! cw = None) by apply fresh_unused.
  assert (U23 : OnStore.untouched h2 h3) by apply untouched_alloc.
  assert (Hd1' : OnStore.reprDocking h3 d1 sdv).
  { eapply reprDocking_kept; [|by repeat split].
    by apply untouched_pointsKept, (untouched_trans _ h2). }
  pose proof (dockingToPoint_refines h3 d1 sdv Hd1') as Hfirst.
  destruct (CroppingConnectionDocking.dockingToPoint sdv) as [f|e].
  2:{ rewrite (run_bind_raised _ _ _ _ _ Hfirst).
      eexists _, h3. split; [reflexivity|]. split; [reflexivity|].
      split; [|done]. by eapply untouched_trans. }
  destruct Hfirst as (h4 & lf & Hrun4 & Hu4 & Hf).
  rewrite (run_bind_done _ _ _ _ _ Hrun4).
  assert (Hcw4 : h4 !! cw = Some (OnStore.ArrayObj sl)).
  { apply Hu4. apply lookup_insert_eq. }
  rewrite (run_bind_done _ _ _ _ _ (unshift_run _ _ _ _ Hcw4)).
  set (h5 := <[cw := OnStore.ArrayObj (lf :: sl)]> h4).
  assert (U24 : OnStore.untouched h2 h4) by by eapply untouched_trans.
  assert (U25 : OnStore.untouched h2 h5)
    by by apply untouched_write_outside.
  assert (K45 : OnStore.pointsKept h4 h5)
    by by eapply pointsKept_write_array.
  assert (Hd2' : OnStore.reprDocking h5 d2 tdv).
  { eapply reprDocking_kept; [|by repeat split].
    by apply untouched_pointsKept. }
  pose proof (dockingToPoint_refines h5 d2 tdv Hd2') as Hlast.
  destruct (CroppingConnectionDocking.dockingToPoint tdv) as [g|e].
  2:{ rewrite (run_bind_raised _ _ _ _ _ Hlast).
      eexists _, h5. split; [reflexivity|]. split; [reflexivity|].
      split; [|done]. by eapply untouched_trans. }
  destruct Hlast as (h6 & lg & Hrun6 & Hu6 & Hg).
  rewrite (run_bind_done _ _ _ _ _ Hrun6).
  assert (Hcw6 : h6 !! cw = Some (OnStore.ArrayObj (lf :: sl))).
  { apply Hu6. apply lookup_insert_eq. }
  rewrite (run_bind_done _ _ _ _ _ (push_run _ _ _ _ Hcw6)).
  set (h7 := <[cw := OnStore.ArrayObj ((lf :: sl) ++ [lg])]> h6).
  assert (U26 : OnStore.untouched h2 h6) by by eapply untouched_trans.
  assert (U27 : OnStore.untouched h2 h7)
    by by apply untouched_write_outside.
  assert (K67 : OnStore.pointsKept h6 h7)
    by by eapply pointsKept_write_array.
  eexists _, h7. split; [reflexivity|]. split; [reflexivity|].
  split; [by eapply untouched_trans|].
  simpl. eexists. split; [apply lookup_insert_eq|].
  unfold Js.push, Js.unshift. simpl. constructor.
  { apply (reprPoint_kept h6); [exact K67|].
    apply (reprPoint_kept h5); [by apply untouched_pointsKept|].
    by apply (reprPoint_kept h4). }
  apply Forall2_app.
  - apply (reprPoints_kept h2); [by apply untouched_pointsKept|].
    by apply slice_Forall2.
  - constructor; [|constructor]. by apply (reprPoint_kept h6).
Qed.

End StoreRefinement.

(** A reference denotes at most one value. *)
Lemma reprPoint_unique {num Shape : Type}
    (h : gmap positive (OnStore.Cell num Shape)) l (w w' : Waypoint num) :
  OnStore.reprPoint h l w → OnStore.reprPoint h l w' → w = w'.
Proof.
  intros Hw. revert w'.
  induction Hw as [l a b Hl | l a b lo wo Hl _ IH]; intros w' Hw';
    destruct Hw' as [l a' b' Hl' | l a' b' lo' wo' Hl' Hlo'];
    rewrite Hl in Hl'; simplify_eq; [done|].
  by rewrite (IH _ Hlo').
Qed.

(** C8. Both operations are pure.  Run over a store of objects, with a
    graphics factory that only reads, [getCroppedWaypoints] and
    [getDockingPoint] leave every object that existed before the call as
    it was, whatever the store and the outcome: neither the waypoint
    array, nor a waypoint, nor the connection is written to.  And when
    the arguments denote a connection (or a waypoint array) and the
    geometry handed out by the graphics factory depends on the denoted
    values only, the input denotes the same values after the call, and a
    second call has an outcome denoting the same value as the first one,
    namely the one computed by the value-level functions. *)
Theorem cropping_is_pure {num Shape : Type}
    (gfS : @OnStore.GraphicsFactory num Shape) (isect : Intersection num)
    (h : gmap positive (OnStore.Cell num Shape)) (cow : positive)
    (s t : option Shape) :
  (∀ h',
     OnStore.finalStore (OnStore.getCroppedWaypoints gfS isect cow s t h)
     = Some h' →
     OnStore.untouched h h')
  ∧ (∀ a shape dockStart h',
       OnStore.finalStore
         (OnStore.getDockingPoint gfS isect a shape dockStart h) = Some h' →
       OnStore.untouched h h')
  ∧ ∀ (gf : GraphicsFactory num Shape)
      (cowv : ConnectionOrWaypoints num Shape),
      agrees gfS gf →
      OnStore.reprInput h cow cowv →
      (∃ o1 h1 o2 h2,
         OnStore.getCroppedWaypoints gfS isect cow s t h = o1
         ∧ OnStore.finalStore o1 = Some h1
         ∧ OnStore.reprInput h1 cow cowv
         ∧ OnStore.getCroppedWaypoints gfS isect cow s t h1 = o2
         ∧ OnStore.finalStore o2 = Some h2
         ∧ OnStore.reprOutcome OnStore.reprArray o1
             (CroppingConnectionDocking.getCroppedWaypoints gf isect cowv s t)
         ∧ OnStore.reprOutcome OnStore.reprArray o2
             (CroppingConnectionDocking.getCroppedWaypoints gf isect cowv s t))
      ∧ (∀ a shape dockStart,
           OnStore.reprArray h a (waypointsOf cowv) →
           ∃ h1 d1 h2 d2,
             OnStore.getDockingPoint gfS isect a shape dockStart h
             = OnStore.Done h1 d1
             ∧ OnStore.reprArray h1 a (waypointsOf cowv)
             ∧ OnStore.getDockingPoint gfS isect a shape dockStart h1
               = OnStore.Done h2 d2
             ∧ OnStore.reprDocking h1 d1
                 (CroppingConnectionDocking.getDockingPoint gf isect
                    (waypointsOf cowv) shape dockStart)
             ∧ OnStore.reprDocking h2 d2
                 (CroppingConnectionDocking.getDockingPoint gf isect
                    (waypointsOf cowv) shape dockStart)).
Proof.
  split.
  { intros h'. apply keeps_final, keeps_getCroppedWaypoints. }
  split.
  { intros a shape dockStart h'. apply keeps_final, keeps_getDockingPoint. }
  intros gf cowv Hag Hin. split.
  - destruct (getCroppedWaypoints_refines gfS gf isect Hag h cow cowv s t Hin)
      as (o1 & h1 & Ho1 & Hf1 & Hu1 & Hr1).
    assert (Hin1 : OnStore.reprInput h1 cow cowv)
      by by eapply reprInput_untouched.
    destruct (getCroppedWaypoints_refines gfS gf isect Hag h1 cow cowv s t Hin1)
      as (o2 & h2 & Ho2 & Hf2 & Hu2 & Hr2).
    exists o1, h1, o2, h2. repeat split; assumption.
  - intros a shape dockStart Ha.
    destruct (getDockingPoint_refines gfS gf isect Hag h a _ shape dockStart Ha)
      as (h1 & d1 & Hrun1 & Hu1 & Hd1).
    assert (Ha1 : OnStore.reprArray h1 a (waypointsOf cowv))
      by by eapply reprArray_untouched.
    destruct (getDockingPoint_refines gfS gf isect Hag h1 a _ shape dockStart Ha1)
      as (h2 & d2 & Hrun2 & Hu2 & Hd2).
    exists h1, d1, h2, d2. repeat split; try assumption.
    all: by destruct Hd1 as (? & ? & ?), Hd2 as (? & ? & ?).
Qed.

(** ** The concrete diagram, run *)

Section OnTheDiagram.

Local Abbreviation crop :=
  (CroppingConnectionDocking.getCroppedWaypoints
     Worked.graphicsFactory Worked.intersection).
Local Abbreviation dock :=
  (CroppingConnectionDocking.getDockingPoint
     Worked.graphicsFactory Worked.intersection).

Lemma worked_intersection_contract :
  nothingWithoutBoundary Worked.intersection.
Proof.
  intros shapePath connectionPath cropStart [-> | ->]; [done|].
  by destruct connectionPath.
Qed.

Lemma worked_factories_agree :
  agrees Worked.storeGraphicsFactory Worked.graphicsFactory.
Proof.
  split; [done|]. intros h a ws (es & Ha & Hes). simpl. rewrite Ha.
  destruct Hes as [|? ? ? ? _ [|? ? ? ? _ _]]; reflexivity.
Qed.

Lemma worked_store_input :
  OnStore.reprInput Worked.store 1%positive (AnArray Worked.connector).
Proof.
  exists [2%positive; 3%positive]. split; [reflexivity|].
  repeat constructor.
Qed.

(** The connector of the diagram, cropped in the store: the result is a
    new array of two new points, whose [original] refer to the two
    waypoints of the connector; array 1 and its points are as before. *)
Example worked_example_store :
  match OnStore.getCroppedWaypoints
          Worked.storeGraphicsFactory Worked.intersection
          1%positive (Some Worked.Left) (Some Worked.Right) Worked.store
  with
  | OnStore.Done h r =>
      r = 6%positive
      ∧ h !! 6%positive = Some (OnStore.ArrayObj [7%positive; 8%positive])
      ∧ h !! 7%positive
        = Some (OnStore.PointObj (Some 100) (Some 50) (Some 2%positive))
      ∧ h !! 8%positive
        = Some (OnStore.PointObj (Some 200) (Some 50) (Some 3%positive))
      ∧ h !! 1%positive = Some (OnStore.ArrayObj [2%positive; 3%positive])
      ∧ h !! 2%positive = Some (OnStore.PointObj (Some 50) (Some 50) None)
      ∧ h !! 3%positive = Some (OnStore.PointObj (Some 250) (Some 50) None)
  | _ => False
  end.
Proof. vm_compute. repeat split. Qed.

Lemma cropped_endpoints_are_docking_actuals_witness :
  ∃ r first final sa ta,
    crop (AnArray Worked.connector) (Some Worked.Left) (Some Worked.Right)
    = Normal r
    ∧ head r = Some first
    ∧ last r = Some final
    ∧ actual (dock Worked.connector (Some Worked.Left) true) = Some sa
    ∧ actual (dock Worked.connector (Some Worked.Right) false) = Some ta
    ∧ sameCoordinates first sa
    ∧ sameCoordinates final ta.
Proof.
  apply (cropped_endpoints_are_docking_actuals
           Worked.graphicsFactory Worked.intersection
           (AnArray Worked.connector) (Some Worked.Left) (Some Worked.Right)).
  simpl. lia.
Defined.

Lemma docking_point_descriptor_witness :
  let d := dock Worked.connector (Some Worked.Right) false in
  idx d = 1
  ∧ point d = Some (pt 250 50)
  ∧ is_Some (point d)
  ∧ actual d = Some (pt 200 50).
Proof.
  apply (docking_point_descriptor
           Worked.graphicsFactory Worked.intersection
           Worked.connector (Some Worked.Right) false).
  simpl. lia.
Defined.

Lemma cropped_length_witness :
  ∃ r,
    crop (AnArray Worked.connector) (Some Worked.Left) (Some Worked.Right)
    = Normal r
    ∧ (2 ≤ length r)%nat
    ∧ length r = 2%nat
    ∧ (2%nat = 2%nat →
       Js.slice Worked.connector (0 + 1) 1 = []
       ∧ ∃ sa ta first final,
           actual (dock Worked.connector (Some Worked.Left) true) = Some sa
           ∧ actual (dock Worked.connector (Some Worked.Right) false)
             = Some ta
           ∧ r = [first; final]
           ∧ sameCoordinates first sa
           ∧ sameCoordinates final ta).
Proof.
  apply (cropped_length
           Worked.graphicsFactory Worked.intersection
           (AnArray Worked.connector) (Some Worked.Left) (Some Worked.Right)).
  simpl. lia.
Defined.

Lemma logical_anchor_preserved_witness :
  ∃ a z r first final,
    head Worked.connector = Some a
    ∧ last Worked.connector = Some z
    ∧ crop (AnArray Worked.connector) (Some Worked.Left) (Some Worked.Right)
      = Normal r
    ∧ head r = Some first
    ∧ last r = Some final
    ∧ original first = Some (match original a with Some o => o | None => a end)
    ∧ original final = Some (match original z with Some o => o | None => z end)
    ∧ ∀ (gf' : GraphicsFactory Z Worked.Shape) (isect' : Intersection Z)
        (cow' : ConnectionOrWaypoints Z Worked.Shape)
        (s' t' : option Worked.Shape),
        waypointsOf cow' = r →
        ∃ r' first' final',
          CroppingConnectionDocking.getCroppedWaypoints gf' isect' cow' s' t'
          = Normal r'
          ∧ head r' = Some first'
          ∧ last r' = Some final'
          ∧ original first' = original first
          ∧ original final' = original final.
Proof.
  apply (logical_anchor_preserved
           Worked.graphicsFactory Worked.intersection
           (AnArray Worked.connector) (Some Worked.Left) (Some Worked.Right)).
  simpl. lia.
Defined.

Lemma interior_preserved_witness :
  let ws := [pt 50 50; pt 50 200; pt 250 200; pt 250 50] in
  ∃ a mid z first final r,
    ws = a :: mid ++ [z]
    ∧ length mid = 2%nat
    ∧ CroppingConnectionDocking.dockingToPoint
        (dock ws (Some Worked.Left) true) = Normal first
    ∧ CroppingConnectionDocking.dockingToPoint
        (dock ws (Some Worked.Right) false) = Normal final
    ∧ crop (AConnection
              (mkConnection ws (Some Worked.Left) (Some Worked.Right)))
           None None = Normal r
    ∧ r = [first] ++ mid ++ [final]
    ∧ ∀ i : nat, (1 ≤ i ≤ 2)%nat → r !! i = ws !! i.
Proof.
  apply (interior_preserved
           Worked.graphicsFactory Worked.intersection
           (AConnection
              (mkConnection [pt 50 50; pt 50 200; pt 250 200; pt 250 50]
                 (Some Worked.Left) (Some Worked.Right)))
           None None).
  simpl. lia.
Defined.

Lemma fallback_law_witness :
  let ws := [ptOrig 60 50 (pt 50 50); pt 250 50] in
  let cow := AConnection (mkConnection ws (Some Worked.Unrendered) None) in
  (∀ shape dockStart,
     noCrossing Worked.graphicsFactory Worked.intersection ws shape dockStart →
     actual (dock ws shape dockStart)
     = Js.index ws (idx (dock ws shape dockStart)))
  ∧ ∃ a z r first final,
      head ws = Some a
      ∧ last ws = Some z
      ∧ crop cow None None = Normal r
      ∧ head r = Some first
      ∧ last r = Some final
      ∧ (noCrossing Worked.graphicsFactory Worked.intersection ws
           (Some Worked.Unrendered) true →
         sameCoordinates first a
         ∧ original first = Some (anchor a)
         ∧ (is_Some (original a) → first = a))
      ∧ (noCrossing Worked.graphicsFactory Worked.intersection ws None false →
         sameCoordinates final z
         ∧ original final = Some (anchor z)
         ∧ (is_Some (original z) → final = z)).
Proof.
  apply (fallback_law
           Worked.graphicsFactory Worked.intersection
           (AConnection
              (mkConnection [ptOrig 60 50 (pt 50 50); pt 250 50]
                 (Some Worked.Unrendered) None))
           None None).
  - exact worked_intersection_contract.
  - simpl. discriminate.
Defined.

Lemma single_waypoint_witness :
  let w := pt 50 50 in
  let sourceDocking := dock [w] (Some Worked.Left) true in
  let targetDocking := dock [w] (Some Worked.Right) false in
  idx sourceDocking = 0
  ∧ idx targetDocking = 0
  ∧ Js.slice [w] (idx sourceDocking + 1) (idx targetDocking) = []
  ∧ ∃ sa ta first final,
      actual sourceDocking = Some sa
      ∧ actual targetDocking = Some ta
      ∧ crop (AnArray [w]) (Some Worked.Left) (Some Worked.Right)
        = Normal [first; final]
      ∧ sameCoordinates first sa
      ∧ sameCoordinates final ta
      ∧ original first
        = Some (match original w with Some o => o | None => w end)
      ∧ original final
        = Some (match original w with Some o => o | None => w end)
      ∧ (CroppingConnectionDocking._getIntersection
           Worked.graphicsFactory Worked.intersection
           (Some Worked.Left) [w] true = None → sa = w)
      ∧ (CroppingConnectionDocking._getIntersection
           Worked.graphicsFactory Worked.intersection
           (Some Worked.Right) [w] false = None → ta = w).
Proof.
  apply (single_waypoint
           Worked.graphicsFactory Worked.intersection
           (AnArray [pt 50 50]) (Some Worked.Left) (Some Worked.Right)
           (pt 50 50)).
  reflexivity.
Defined.

Lemma cropping_is_pure_witness :
  ∃ o1 h1 o2 h2,
    OnStore.getCroppedWaypoints Worked.storeGraphicsFactory Worked.intersection
      1%positive (Some Worked.Left) (Some Worked.Right) Worked.store = o1
    ∧ OnStore.finalStore o1 = Some h1
    ∧ OnStore.reprInput h1 1%positive (AnArray Worked.connector)
    ∧ OnStore.getCroppedWaypoints Worked.storeGraphicsFactory
        Worked.intersection 1%positive (Some Worked.Left) (Some Worked.Right)
        h1 = o2
    ∧ OnStore.finalStore o2 = Some h2
    ∧ OnStore.reprOutcome OnStore.reprArray o1
        (crop (AnArray Worked.connector) (Some Worked.Left)
           (Some Worked.Right))
    ∧ OnStore.reprOutcome OnStore.reprArray o2
        (crop (AnArray Worked.connector) (Some Worked.Left)
           (Some Worked.Right)).
Proof.
  apply (cropping_is_pure
           Worked.storeGraphicsFactory Worked.intersection Worked.store
           1%positive (Some Worked.Left) (Some Worked.Right)).
  - exact worked_factories_agree.
  - exact worked_store_input.
Defined.

(** C7, as stated, fails.  A sequence of a single waypoint is cropped to
    two points and no error is signalled, by [getCroppedWaypoints] or by
    [getDockingPoint]; nor is one signalled for a waypoint array passed
    without endpoint shapes. *)
Lemma invalid_input_not_rejected :
  (length [pt 50 50] < 2)%nat
  ∧ crop (AnArray [pt 50 50]) (Some Worked.Left) (Some Worked.Right)
    = Normal [ptOrig 50 50 (pt 50 50); ptOrig 50 50 (pt 50 50)]
  ∧ (¬ ∃ e, crop (AnArray [pt 50 50]) (Some Worked.Left) (Some Worked.Right)
            = Throw e)
  ∧ dock [pt 50 50] (Some Worked.Left) true
    = {| point := Some (pt 50 50); actual := Some (pt 50 50); idx := 0 |}
  ∧ dock [pt 50 50] (Some Worked.Right) false
    = {| point := Some (pt 50 50); actual := Some (pt 50 50); idx := 0 |}
  ∧ crop (AnArray Worked.connector) None None
    = Normal [ptOrig 50 50 (pt 50 50); ptOrig 250 50 (pt 250 50)].
Proof.
  split; [simpl; lia|]. split; [reflexivity|].
  split; [by intros [e He]|]. repeat split.
Qed.

End OnTheDiagram.

(* ===================================================================== *)
(** * Part VI: properties of the move code                                *)
(* ===================================================================== *)

Local Set Warnings "-clear-no-such-hyp".

Section MoveProperties.
Context {Id : Type} `{Countable Id}.

Local Abbreviation Element := (MoveEvents.Element Id).
Local Abbreviation id := (@MoveEvents.id Id).
Local Abbreviation parent := (@MoveEvents.parent Id).
Local Abbreviation ancestors := (@MoveEvents.ancestors Id).









Lemma removeNested_sublist (l : list Element) :
  sublist (MoveEvents.removeNested l) l.
Proof. apply sublist_filter. Qed.


Lemma ancestors_parent (e p : Element) :
  parent e = Some p → ancestors e = p :: ancestors p.
Proof. destruct e as [i [q|]]; simpl; naive_solver. Qed.










End MoveProperties.

(** ** The handlers of a drag *)

Lemma round_integral (q : Q) :
  ∃ k : Z, MoveEvents.round q = inject_Z k
           ∧ (q - (1 # 2) < inject_Z k)%Q ∧ (inject_Z k <= q + (1 # 2))%Q.
Proof.
  exists (Qfloor (q + (1 # 2))). split; [done|].
  pose proof (Qfloor_le (q + (1 # 2))) as Hle.
  pose proof (Qlt_floor (q + (1 # 2))) as Hlt.
  rewrite inject_Z_plus in Hlt. change (inject_Z 1) with 1%Q in Hlt.
  split; lra.
Qed.

Lemma inject_Z_zero (k : Z) : Qeq_bool (inject_Z k) 0 = true ↔ k = 0.
Proof. rewrite Qeq_bool_iff. unfold Qeq, inject_Z. simpl. lia. Qed.

(** A number rounds to zero exactly when it lies in [-1/2, 1/2). *)
Lemma round_zero (q : Q) :
  Qeq_bool (MoveEvents.round q) 0 = true
  ↔ (-(1 # 2) <= q)%Q ∧ (q < 1 # 2)%Q.
Proof.
  unfold MoveEvents.round. rewrite inject_Z_zero.
  pose proof (Qfloor_le (q + (1 # 2))) as Hle.
  pose proof (Qlt_floor (q + (1 # 2))) as Hlt.
  split.
  - intros Hk. rewrite Hk in Hle, Hlt.
    change (inject_Z 0) with 0%Q in Hle.
    change (inject_Z (0 + 1)) with 1%Q in Hlt. split; lra.
  - intros [H1 H2].
    assert (Qfloor (q + (1 # 2)) < 1) as Hhi.
    { rewrite Zlt_Qlt. change (inject_Z 1) with 1%Q. lra. }
    assert (0 ≤ Qfloor (q + (1 # 2))) as Hlo.
    { change 0 with (Qfloor 0). apply Qfloor_resp_le. lra. }
    lia.
Qed.

Section DragHandlers.
Context {Id : Type} `{Countable Id}.

Local Abbreviation Context_ := (MoveEvents.Context Id).

(** X7. When the context holds a delta, the ['shape.move.end'] handler
    does not throw.  It returns [false] exactly when [canExecute] is
    [false].  It leaves the modeling alone exactly when [canExecute] is
    [false] or both components of the delta lie in [-1/2, 1/2).
    Otherwise it calls [moveElements] once, with the shapes, target and
    primary shape of the context, with [attach] set exactly for the
    verdict ['attach'], and with the delta rounded: integral components,
    not both zero, each within 1/2 of the component dragged; the context
    then holds the rounded delta too. *)
Theorem move_end_moves (context : Context_) (d : MoveEvents.XY) :
  MoveEvents.delta context = Some d →
  ∃ res,
    MoveEvents.onShapeMoveEnd context = Normal res
    ∧ (MoveEvents.returned res = MoveEvents.ReturnsFalse
       ↔ MoveEvents.canExecute context = Some MoveEvents.VFalse)
    ∧ (MoveEvents.moved res = None
       ↔ MoveEvents.canExecute context = Some MoveEvents.VFalse
         ∨ ((-(1 # 2) <= MoveEvents.x d)%Q ∧ (MoveEvents.x d < 1 # 2)%Q
            ∧ (-(1 # 2) <= MoveEvents.y d)%Q ∧ (MoveEvents.y d < 1 # 2)%Q))
    ∧ ∀ call,
        MoveEvents.moved res = Some call →
        MoveEvents.callShapes call = MoveEvents.shapes context
        ∧ MoveEvents.callTarget call = MoveEvents.target context
        ∧ MoveEvents.primaryShape call = MoveEvents.shape context
        ∧ (MoveEvents.attach call = true
           ↔ MoveEvents.canExecute context
             = Some (MoveEvents.VString "attach"))
        ∧ MoveEvents.delta (MoveEvents.endContext res)
          = Some (MoveEvents.callDelta call)
        ∧ ∃ kx ky : Z,
            MoveEvents.callDelta call
            = {| MoveEvents.x := inject_Z kx; MoveEvents.y := inject_Z ky |}
            ∧ (kx ≠ 0 ∨ ky ≠ 0)
            ∧ (MoveEvents.x d - (1 # 2) < inject_Z kx)%Q
            ∧ (inject_Z kx <= MoveEvents.x d + (1 # 2))%Q
            ∧ (MoveEvents.y d - (1 # 2) < inject_Z ky)%Q
            ∧ (inject_Z ky <= MoveEvents.y d + (1 # 2))%Q.
Proof.
  intros Hd. unfold MoveEvents.onShapeMoveEnd. rewrite Hd.
  destruct (round_integral (MoveEvents.x d)) as (kx & Hkx & Hx1 & Hx2).
  destruct (round_integral (MoveEvents.y d)) as (ky & Hky & Hy1 & Hy2).
  pose proof (round_zero (MoveEvents.x d)) as Hzx.
  pose proof (round_zero (MoveEvents.y d)) as Hzy.
  pose proof (inject_Z_zero kx) as Hzkx. rewrite <- Hkx in Hzkx.
  pose proof (inject_Z_zero ky) as Hzky. rewrite <- Hky in Hzky.
  assert (Hattach : ∀ s, String.eqb s "attach" = true
            ↔ Some (MoveEvents.VString s)
              = Some (MoveEvents.VString "attach")).
  { intros s. rewrite String.eqb_eq. naive_solver. }
  cbv zeta. simpl (MoveEvents.x {| MoveEvents.x := _ |}).
  simpl (MoveEvents.y {| MoveEvents.x := _ |}).
  destruct (MoveEvents.canExecute context) as [[| | |s]|] eqn:Ec.
  { eexists. split; [reflexivity|]. simpl.
    split; [done|]. split; [by split; [left|]|]. by intros call. }
  all: destruct (Qeq_bool (MoveEvents.round (MoveEvents.x d)) 0) eqn:Ex;
    destruct (Qeq_bool (MoveEvents.round (MoveEvents.y d)) 0) eqn:Ey;
    simpl andb; cbv iota;
    (eexists; split; [reflexivity|]); simpl;
    (split; [by split|]);
    (split; [naive_solver|]);
    intros call Hcall; simplify_eq; simpl.
  all: split_and!; try done; try (apply Hattach); try by split.
  all: exists kx, ky; rewrite Hkx, Hky.
  all: split_and!; try done.
  all: destruct (decide (kx = 0)) as [Hk0|]; [|by left].
  all: destruct (decide (ky = 0)) as [Hk0'|]; [|by right].
  all: apply Hzkx in Hk0; apply Hzky in Hk0'; congruence.
Qed.

(** X8. The ['shape.move.end'] handler throws, a [TypeError], exactly
    when the context holds no delta (no move event was handled) and
    [canExecute] is not [false]; with [canExecute] being [false] it
    returns [false], calls nothing and leaves the context as it is,
    delta or not. *)
Theorem move_end_without_delta (context : Context_) :
  (MoveEvents.onShapeMoveEnd context = Throw TypeError
   ↔ MoveEvents.delta context = None
     ∧ MoveEvents.canExecute context ≠ Some MoveEvents.VFalse)
  ∧ (MoveEvents.canExecute context = Some MoveEvents.VFalse →
     MoveEvents.onShapeMoveEnd context
     = Normal (MoveEvents.mkEndResult context None MoveEvents.ReturnsFalse)).
Proof.
  unfold MoveEvents.onShapeMoveEnd. split.
  - destruct (MoveEvents.delta context) as [d|] eqn:Ed.
    + split; [|by intros [? _]]. cbv zeta.
      destruct (MoveEvents.canExecute context) as [[| | |s]|]; try done;
        by destruct (_ && _).
    + destruct (MoveEvents.canExecute context) as [[| | |s]|];
        split; try done; by intros [_ ?].
  - by intros ->.
Qed.

(** X9. A move event followed by the end of the drag.  The move handler
    asks the rules about the validated shapes with the unrounded delta,
    stores delta and verdict in the context and leaves its shapes alone.
    The end handler then does not throw, and if it calls [moveElements],
    the verdict was not [false], the delta is the rounded delta of the
    event, and the target is the element hovered, or none when the
    verdict was [null]. *)
Theorem move_then_end (allowed : string → MoveEvents.RulesContext Id
                                 → MoveEvents.Verdict)
    (event : MoveEvents.MoveEvent Id) (context : Context_) :
  let delta :=
    {| MoveEvents.x := MoveEvents.dx event;
       MoveEvents.y := MoveEvents.dy event |} in
  let position :=
    {| MoveEvents.x := MoveEvents.evX event;
       MoveEvents.y := MoveEvents.evY event |} in
  let verdict :=
    MoveEvents.canMove allowed (MoveEvents.validatedShapes context)
      (Some delta) (Some position) (MoveEvents.hover event) in
  let context' := MoveEvents.onShapeMoveMove allowed event context in
  MoveEvents.canExecute context' = Some verdict
  ∧ MoveEvents.delta context' = Some delta
  ∧ MoveEvents.shapes context' = MoveEvents.shapes context
  ∧ MoveEvents.validatedShapes context' = MoveEvents.validatedShapes context
  ∧ MoveEvents.shape context' = MoveEvents.shape context
  ∧ MoveEvents.target context'
    = match verdict with
      | MoveEvents.VNull => None
      | _ => MoveEvents.hover event
      end
  ∧ ∃ res,
      MoveEvents.onShapeMoveEnd context' = Normal res
      ∧ ∀ call,
          MoveEvents.moved res = Some call →
          verdict ≠ MoveEvents.VFalse
          ∧ MoveEvents.callShapes call = MoveEvents.shapes context
          ∧ MoveEvents.primaryShape call = MoveEvents.shape context
          ∧ MoveEvents.callDelta call
            = {| MoveEvents.x := MoveEvents.round (MoveEvents.dx event);
                 MoveEvents.y := MoveEvents.round (MoveEvents.dy event) |}
          ∧ MoveEvents.callTarget call
            = match verdict with
              | MoveEvents.VNull => None
              | _ => MoveEvents.hover event
              end.
Proof.
  intros delta position verdict context'.
  unfold context', MoveEvents.onShapeMoveMove. fold delta position verdict.
  assert (Hfields :
    ∀ tgt,
      let c := MoveEvents.mkContext (Some delta) (Some verdict) tgt
                 (MoveEvents.shapes context)
                 (MoveEvents.validatedShapes context)
                 (MoveEvents.shape context) in
      ∃ res,
        MoveEvents.onShapeMoveEnd c = Normal res
        ∧ ∀ call,
            MoveEvents.moved res = Some call →
            verdict ≠ MoveEvents.VFalse
            ∧ MoveEvents.callShapes call = MoveEvents.shapes context
            ∧ MoveEvents.primaryShape call = MoveEvents.shape context
            ∧ MoveEvents.callDelta call
              = {| MoveEvents.x := MoveEvents.round (MoveEvents.dx event);
                   MoveEvents.y := MoveEvents.round (MoveEvents.dy event) |}
            ∧ MoveEvents.callTarget call = tgt).
  { intros tgt c. unfold MoveEvents.onShapeMoveEnd, c. simpl.
    destruct verdict as [| | |s].
    { eexists. split; [reflexivity|]. by intros call. }
    all: destruct (Qeq_bool (MoveEvents.round (MoveEvents.dx event)) 0
                   && Qeq_bool (MoveEvents.round (MoveEvents.dy event)) 0);
      eexists; (split; [reflexivity|]); intros call Hcall;
      simpl in Hcall; simplify_eq; done. }
  simpl. destruct verdict as [| | |s] eqn:Ev; simpl;
    repeat (split; [done|]); apply Hfields.
Qed.


End DragHandlers.

(* ===================================================================== *)
(** * Part VIII: properties of the bootstrap                              *)
(* ===================================================================== *)

Section BootstrapProperties.
Context {Component : Type}.

Local Abbreviation DidiModule := (Diagram.DidiModule Component).
Local Abbreviation Loaded := (Diagram.Loaded Component).
Local Abbreviation ident := (@Diagram.ident Component).
Local Abbreviation depends := (@Diagram.__depends__ Component).
Local Abbreviation init := (@Diagram.__init__ Component).
Local Abbreviation modules := (@Diagram.modules Component).
Local Abbreviation components := (@Diagram.components Component).

(** Induction on a module, knowing the property of what it depends on. *)
Lemma DidiModule_depends_ind (P : DidiModule → Prop) :
  (∀ i deps inits, Forall P deps → P (Diagram.mkModule i deps inits)) →
  ∀ m, P m.
Proof.
  intros Hstep. fix IH 1. intros [i deps inits]. apply Hstep.
  induction deps as [|d deps IHdeps]; constructor; [apply IH | exact IHdeps].
Qed.

Lemma hasModule_spec (mods : list DidiModule) (m : DidiModule) :
  Diagram.hasModule mods m = true ↔ ident m ∈ ident <$> mods.
Proof.
  unfold Diagram.hasModule. rewrite existsb_exists, list_elem_of_fmap.
  split.
  - intros (x & Hx & Heq). apply Pos.eqb_eq in Heq.
    exists x. split; [done|]. by apply list_elem_of_In.
  - intros (x & Heq & Hx). exists x. split; [by apply list_elem_of_In|].
    by apply Pos.eqb_eq.
Qed.

Lemma push_components (st : Loaded) (cs : list Component) :
  foldl (λ st c, Diagram.mkLoaded (modules st) (components st ++ [c])) st cs
  = Diagram.mkLoaded (modules st) (components st ++ cs).
Proof.
  revert st. induction cs as [|c cs IH]; intros [mods comps]; simpl.
  - by rewrite app_nil_r.
  - rewrite IH. simpl. by rewrite <- app_assoc.
Qed.

Lemma visit_unfold (m : DidiModule) (st : Loaded) :
  Diagram.visit m st
  = if Diagram.hasModule (modules st) m then st
    else
      let st1 := foldl (λ st d, Diagram.visit d st) st (depends m) in
      if Diagram.hasModule (modules st1) m then st1
      else Diagram.mkLoaded (modules st1 ++ [m]) (components st1 ++ init m).
Proof.
  destruct m as [i deps inits]. simpl.
  destruct (Diagram.hasModule (modules st) _); [done|].
  destruct (Diagram.hasModule _ _); [done|].
  by rewrite push_components.
Qed.

Lemma grows_refl (st : Loaded) :
  Diagram.wellLoaded st → Diagram.grows st st [].
Proof.
  intros Hwl. split; [done|]. split; [done|].
  split; [by intros m ?%elem_of_nil | by left].
Qed.

Lemma grows_trans (st st1 st2 : Loaded) (v1 v2 : list DidiModule) :
  Diagram.grows st st1 v1 → Diagram.grows st1 st2 v2 →
  Diagram.grows st st2 (v1 ++ v2).
Proof.
  intros (_ & Hp1 & Hin1 & Hs1) (Hwl & Hp2 & Hin2 & Hs2).
  split; [done|]. split; [by etrans|]. split.
  - intros m [Hm|Hm]%elem_of_app; [|by apply Hin2].
    destruct Hp2 as [k ->]. rewrite fmap_app, elem_of_app. left.
    by apply Hin1.
  - intros x Hx. rewrite flat_map_app, elem_of_app.
    destruct (Hs2 x Hx) as [Hx1|Hx2]; [|by right; right].
    destruct (Hs1 x Hx1); [by left | by right; left].
Qed.

Lemma visit_all_grows (ms : list DidiModule) :
  Forall (λ m, ∀ st, Diagram.wellLoaded st →
                     Diagram.grows st (Diagram.visit m st) [m]) ms →
  ∀ st, Diagram.wellLoaded st →
        Diagram.grows st (foldl (λ st m, Diagram.visit m st) st ms) ms.
Proof.
  induction 1 as [|m ms Hm _ IH]; intros st Hwl; simpl.
  - by apply grows_refl.
  - pose proof (Hm st Hwl) as Hg1.
    change (m :: ms) with ([m] ++ ms).
    eapply grows_trans; [exact Hg1|]. apply IH. by destruct Hg1.
Qed.

(** A visit keeps the arrays well loaded, only appends to them, leaves
    the module visited among the modules, and adds nothing but the
    module and the modules it depends on. *)
Lemma visit_grows (m : DidiModule) (st : Loaded) :
  Diagram.wellLoaded st → Diagram.grows st (Diagram.visit m st) [m].
Proof.
  revert st.
  induction m as [i deps inits Hdeps] using DidiModule_depends_ind.
  intros st Hwl. set (m := Diagram.mkModule i deps inits).
  rewrite visit_unfold. fold m.
  destruct (Diagram.hasModule (modules st) m) eqn:Hhas.
  { destruct (grows_refl st Hwl) as (? & ? & _ & ?).
    split; [done|]. split; [done|]. split.
    - intros ? ->%list_elem_of_singleton. by apply hasModule_spec.
    - by left. }
  cbv zeta.
  pose proof (visit_all_grows deps Hdeps st Hwl) as Hg.
  set (st1 := foldl (λ st d, Diagram.visit d st) st deps) in *.
  change (depends m) with deps. fold st1.
  destruct Hg as (Hwl1 & Hp1 & Hin1 & Hs1).
  assert (Hsub : ∀ x, x ∈ modules st1 →
            x ∈ modules st ∨ x ∈ flat_map Diagram.subModules [m]).
  { intros x Hx. destruct (Hs1 x Hx) as [|Hd]; [by left|right].
    simpl. rewrite app_nil_r. by right. }
  destruct (Diagram.hasModule (modules st1) m) eqn:Hhas1.
  { split; [done|]. split; [done|]. split; [|done].
    intros ? ->%list_elem_of_singleton. by apply hasModule_spec. }
  assert (Hnew : ident m ∉ ident <$> modules st1).
  { rewrite <- hasModule_spec. by rewrite Hhas1. }
  destruct Hwl1 as (Hnd & Hord & Hcomp).
  split; [|split; [|split]]; simpl.
  - split; [|split]; simpl.
    + rewrite fmap_app. apply NoDup_app. split; [done|]. split.
      * intros y Hy ->%list_elem_of_singleton. done.
      * apply NoDup_singleton.
    + intros k x Hk d Hd.
      destruct (decide (k < length (modules st1))%nat) as [Hlt|Hge].
      * rewrite lookup_app_l in Hk by done.
        rewrite take_app_le by lia. by eapply Hord.
      * apply lookup_lt_Some in Hk as Hlen. rewrite length_app in Hlen.
        simpl in Hlen. assert (k = length (modules st1)) as -> by lia.
        rewrite list_lookup_middle in Hk by done. injection Hk as <-.
        rewrite take_app_length. by apply Hin1.
    + rewrite bind_app, Hcomp. simpl. by rewrite app_nil_r.
  - etrans; [exact Hp1|]. by apply prefix_app_r.
  - intros ? ->%list_elem_of_singleton. rewrite fmap_app, elem_of_app.
    right. by left.
  - intros x [Hx|Hx]%elem_of_app; [by apply Hsub|].
    apply list_elem_of_singleton in Hx as ->. right. simpl. by left.
Qed.

(** [bootstrapModules.forEach(visit)], from empty arrays. *)
Lemma visitAll_grows (ms : list DidiModule) :
  Diagram.grows (Diagram.mkLoaded [] []) (Diagram.visitAll ms) ms.
Proof.
  apply visit_all_grows.
  - apply Forall_forall. intros m _ st. apply visit_grows.
  - split; [constructor|]. split; [|done]. by intros i m ?.
Qed.

(** X10. The modules [bootstrap] hands to the injector: no module is
    loaded twice, and every module is loaded after all the modules it
    depends on. *)
Theorem bootstrap_load_order (bootstrapModules : list DidiModule) :
  let loaded := modules (Diagram.visitAll bootstrapModules) in
  NoDup (ident <$> loaded)
  ∧ ∀ (i : nat) m, loaded !! i = Some m →
      ∀ d, d ∈ depends m →
           ∃ j : nat, (j < i)%nat ∧ ident <$> loaded !! j = Some (ident d).
Proof.
  intros loaded.
  destruct (visitAll_grows bootstrapModules) as ((Hnd & Hord & _) & _).
  split; [exact Hnd|]. intros i m Hi d Hd.
  specialize (Hord i m Hi d Hd).
  apply list_elem_of_lookup in Hord as [j Hj].
  apply lookup_lt_Some in Hj as Hlt.
  rewrite length_fmap, length_take in Hlt.
  rewrite list_lookup_fmap, lookup_take_lt in Hj by lia.
  exists j. split; [lia|exact Hj].
Qed.

(** X11. [bootstrap] loads every module it is given, and nothing but
    these modules and the modules they depend on, directly or not. *)
Theorem bootstrap_loads (bootstrapModules : list DidiModule) :
  let loaded := modules (Diagram.visitAll bootstrapModules) in
  (∀ m, m ∈ bootstrapModules → ident m ∈ ident <$> loaded)
  ∧ (∀ x, x ∈ loaded →
          ∃ m, m ∈ bootstrapModules ∧ x ∈ Diagram.subModules m).
Proof.
  intros loaded.
  destruct (visitAll_grows bootstrapModules) as (_ & _ & Hin & Hs).
  split; [exact Hin|]. intros x Hx.
  destruct (Hs x Hx) as [Hx0|Hx1]; [by apply elem_of_nil in Hx0|].
  apply list_elem_of_In, in_flat_map in Hx1 as (m & Hm & Hxm).
  exists m. by rewrite !list_elem_of_In.
Qed.

Section Resolution.
Context {Injector Error : Type}.
Variable newInjector : list DidiModule → Injector.
Variable resolve : Injector → Component → Diagram.Attempt Error Injector.

Local Abbreviation resolveAll := (Diagram.resolveAll resolve).

Lemma resolveAll_thrown (e : Error) (cs : list Component) :
  foldl (λ acc c, match acc with
                  | Diagram.Returned injector => resolve injector c
                  | Diagram.Thrown e => Diagram.Thrown e
                  end) (Diagram.Thrown e) cs
  = Diagram.Thrown e.
Proof. by induction cs. Qed.

Lemma resolveAll_cons (injector : Injector) (c : Component)
    (cs : list Component) :
  resolveAll injector (c :: cs)
  = match resolve injector c with
    | Diagram.Returned injector' => resolveAll injector' cs
    | Diagram.Thrown e => Diagram.Thrown e
    end.
Proof.
  unfold Diagram.resolveAll. simpl.
  destruct (resolve injector c); [done|apply resolveAll_thrown].
Qed.

(** Resolution fails with the error of the first component that fails. *)
Lemma resolveAll_fails (injector : Injector) (cs : list Component)
    (e : Error) :
  resolveAll injector cs = Diagram.Thrown e
  ↔ ∃ before c after injector',
      cs = before ++ c :: after
      ∧ resolveAll injector before = Diagram.Returned injector'
      ∧ resolve injector' c = Diagram.Thrown e.
Proof.
  revert injector. induction cs as [|c cs IH]; intros injector.
  { split; [done|]. by intros ([|? ?] & ? & ? & ? & ? & _). }
  rewrite resolveAll_cons. split.
  - destruct (resolve injector c) as [injector1|e1] eqn:Hc.
    + intros (before & c' & after & injector' & -> & Hb & Hf)%IH.
      exists (c :: before), c', after, injector'.
      split; [done|]. split; [|done]. by rewrite resolveAll_cons, Hc.
    + intros [= ->]. by exists [], c, cs, injector.
  - intros ([|b before] & c' & after & injector' & Heq & Hb & Hf);
      simpl in Heq; injection Heq as <- ->.
    + unfold Diagram.resolveAll in Hb. simpl in Hb. injection Hb as ->.
      by rewrite Hf.
    + rewrite resolveAll_cons in Hb.
      destruct (resolve injector c) as [injector1|e1]; [|done].
      apply IH. by exists before, c', after, injector'.
Qed.

(** X12. [bootstrap] builds the injector from the modules loaded and then
    resolves the components of these modules, module by module in load
    order and in the order of each [__init__].  It throws exactly when
    a component cannot be resolved: the error is the one of the first
    such component, met after all components before it were resolved. *)
Theorem bootstrap_resolves (bootstrapModules : list DidiModule) :
  let loaded := modules (Diagram.visitAll bootstrapModules) in
  Diagram.bootstrap newInjector resolve bootstrapModules
  = resolveAll (newInjector loaded) (loaded ≫= init)
  ∧ ∀ e,
      Diagram.bootstrap newInjector resolve bootstrapModules
      = Diagram.Thrown e
      ↔ ∃ before c after injector',
          loaded ≫= init = before ++ c :: after
          ∧ resolveAll (newInjector loaded) before
            = Diagram.Returned injector'
          ∧ resolve injector' c = Diagram.Thrown e.
Proof.
  intros loaded.
  destruct (visitAll_grows bootstrapModules) as ((_ & _ & Hcomp) & _).
  assert (Heq : Diagram.bootstrap newInjector resolve bootstrapModules
                = resolveAll (newInjector loaded) (loaded ≫= init)).
  { unfold Diagram.bootstrap. cbv zeta. by rewrite Hcomp. }
  split; [exact Heq|]. intros e. rewrite Heq. apply resolveAll_fails.
Qed.

End Resolution.

(** A module whose identity occurs nowhere in [m] can be put in front of
    the modules loaded without changing what a visit of [m] does. *)
Lemma visit_behind (c m : DidiModule) (st : Loaded) :
  ident c ∉ ident <$> Diagram.subModules m →
  Diagram.visit m (Diagram.mkLoaded (c :: modules st) (components st))
  = Diagram.mkLoaded (c :: modules (Diagram.visit m st))
                     (components (Diagram.visit m st)).
Proof.
  revert st.
  induction m as [i deps inits Hdeps] using DidiModule_depends_ind.
  intros st Hfresh. set (m := Diagram.mkModule i deps inits) in *.
  assert (Hne : ident c ≠ ident m).
  { intros Heq. apply Hfresh. rewrite Heq. simpl. by left. }
  assert (Hhas : ∀ mods, Diagram.hasModule (c :: mods) m
                         = Diagram.hasModule mods m).
  { intros mods. unfold Diagram.hasModule. simpl.
    destruct (Pos.eqb_spec (ident c) i) as [Heq|]; [|done].
    exfalso. by apply Hne. }
  assert (Hfold : ∀ st,
            foldl (λ st d, Diagram.visit d st)
              (Diagram.mkLoaded (c :: modules st) (components st)) deps
            = Diagram.mkLoaded
                (c :: modules (foldl (λ st d, Diagram.visit d st) st deps))
                (components (foldl (λ st d, Diagram.visit d st) st deps))).
  { assert (Hsub : ∀ d, d ∈ deps →
              ident c ∉ ident <$> Diagram.subModules d).
    { intros d Hd Hin. apply Hfresh. simpl. right.
      apply list_elem_of_fmap in Hin as (x & -> & Hx).
      apply list_elem_of_fmap_2, list_elem_of_In, in_flat_map.
      exists d. by rewrite <- !list_elem_of_In. }
    clear Hfresh Hne Hhas. clearbody m.
    induction Hdeps as [|d deps Hd _ IH]; intros st'; simpl; [done|].
    rewrite Hd by (apply Hsub; by left).
    apply IH. intros d' Hd'. apply Hsub. by right. }
  rewrite !visit_unfold. simpl modules. rewrite Hhas.
  destruct (Diagram.hasModule (modules st) m); [done|].
  cbv zeta. change (depends m) with deps. rewrite Hfold. simpl modules.
  rewrite Hhas. by destruct (Diagram.hasModule _ m).
Qed.

(** X13. [createInjector] loads its config module first, whatever is
    given; the modules after it, and the components, are those that
    [bootstrap] loads for the core module followed by the given ones. *)
Theorem createInjector_config_first {Injector Error : Type}
    (newInjector : list DidiModule → Injector)
    (resolve : Injector → Component → Diagram.Attempt Error Injector)
    (CoreModule : DidiModule) (options : option (Diagram.Options Component)) :
  let given := default [] (options ≫= Diagram.optionModules) in
  let config := Diagram.configModule (CoreModule :: given) in
  let others := Diagram.visitAll (CoreModule :: given) in
  Diagram.visitAll ([config; CoreModule] ++ given)
  = Diagram.mkLoaded (config :: modules others) (components others)
  ∧ Diagram.createInjector newInjector resolve CoreModule options
    = Diagram.resolveAll resolve (newInjector (config :: modules others))
        (components others).
Proof.
  intros given config others.
  assert (Hfresh : ∀ m, m ∈ CoreModule :: given →
            ident config ∉ ident <$> Diagram.subModules m).
  { intros m Hm Hin.
    apply (is_fresh (list_to_set
             (ident <$> flat_map Diagram.subModules (CoreModule :: given))
             : gset positive)).
    apply elem_of_list_to_set.
    apply list_elem_of_fmap in Hin as (x & Heq & Hx).
    change (fresh _) with (ident config). rewrite Heq.
    apply list_elem_of_fmap_2, list_elem_of_In, in_flat_map.
    exists m. by rewrite <- !list_elem_of_In. }
  assert (Hall : ∀ ms st, (∀ m, m ∈ ms → m ∈ CoreModule :: given) →
            foldl (λ st m, Diagram.visit m st)
              (Diagram.mkLoaded (config :: modules st) (components st)) ms
            = Diagram.mkLoaded
                (config :: modules (foldl (λ st m, Diagram.visit m st) st ms))
                (components (foldl (λ st m, Diagram.visit m st) st ms))).
  { induction ms as [|m ms IH]; intros st Hms; simpl; [done|].
    rewrite visit_behind by (apply Hfresh, Hms; by left).
    apply IH. intros m' Hm'. apply Hms. by right. }
  assert (Hvisit : Diagram.visitAll ([config; CoreModule] ++ given)
                   = Diagram.mkLoaded (config :: modules others)
                       (components others)).
  { unfold Diagram.visitAll at 1.
    change ([config; CoreModule] ++ given)
      with (config :: (CoreModule :: given)).
    change (foldl (λ st m, Diagram.visit m st) (Diagram.mkLoaded [] [])
              (config :: CoreModule :: given))
      with (foldl (λ st m, Diagram.visit m st)
              (Diagram.mkLoaded
                 (config :: modules (Diagram.mkLoaded [] []))
                 (components (Diagram.mkLoaded [] [])))
              (CoreModule :: given)).
    by rewrite Hall. }
  split; [exact Hvisit|].
  unfold Diagram.createInjector, Diagram.bootstrap. cbv zeta.
  replace (default [] (Diagram.optionModules
             (default (Diagram.mkOptions None) options)))
    with given by (unfold given; by destruct options as [[?]|]).
  fold config. by rewrite Hvisit.
Qed.

End BootstrapProperties.

(* ===================================================================== *)
(** * Part IX: the two docking strategies compared, and cropping twice    *)
(* ===================================================================== *)

Section CroppingAgain.
Context {num Shape : Type}.

Lemma sameCoordinates_refl (p : Waypoint num) : sameCoordinates p p.
Proof. by split. Qed.

(** Without intersection the actual point is the docking waypoint. *)
Lemma actual_without_intersection (gf : GraphicsFactory num Shape)
    (isect : Intersection num) (ws : list (Waypoint num))
    (shape : option Shape) (dockStart : bool) :
  CroppingConnectionDocking._getIntersection gf isect shape ws dockStart
  = None →
  CroppingConnectionDocking.getDockingPoint gf isect ws shape dockStart
  = ConnectionDocking.getDockingPoint ws shape dockStart.
Proof.
  intros Hnone. unfold CroppingConnectionDocking.getDockingPoint,
    ConnectionDocking.getDockingPoint. by rewrite Hnone.
Qed.

(** X15. Where the intersection routine finds nothing at either end of a
    connector of two or more waypoints, the cropping strategy gives what
    the identity strategy gives: the same docking descriptors, and
    waypoints with the same coordinates, one for one. *)
Theorem cropping_without_crossing (gf : GraphicsFactory num Shape)
    (isect : Intersection num) (cow : ConnectionOrWaypoints num Shape)
    (s t : option Shape) :
  let ws := waypointsOf cow in
  let source := Js.or s (sourceOf cow) in
  let target := Js.or t (targetOf cow) in
  (2 ≤ length ws)%nat →
  CroppingConnectionDocking._getIntersection gf isect source ws true = None →
  CroppingConnectionDocking._getIntersection gf isect target ws false
  = None →
  CroppingConnectionDocking.getDockingPoint gf isect ws source true
  = ConnectionDocking.getDockingPoint ws source true
  ∧ CroppingConnectionDocking.getDockingPoint gf isect ws target false
    = ConnectionDocking.getDockingPoint ws target false
  ∧ ∃ r,
      CroppingConnectionDocking.getCroppedWaypoints gf isect cow s t
      = Normal r
      ∧ Forall2 sameCoordinates r
          (ConnectionDocking.getCroppedWaypoints cow s t).
Proof.
  intros ws source target Hlen Hs Ht.
  pose proof (actual_without_intersection gf isect ws source true Hs) as Hds.
  pose proof (actual_without_intersection gf isect ws target false Ht) as Hdt.
  split; [exact Hds|]. split; [exact Hdt|].
  destruct (two_or_more _ Hlen) as (a & mid & z & Hws).
  destruct (crop_two_or_more gf isect cow s t a z mid Hws)
    as (sa & ta & Hsa & Hta & Hr).
  fold ws source target in Hsa, Hta. rewrite Hds in Hsa. rewrite Hdt in Hta.
  assert (Hhead : Js.index ws 0 = Some a) by by rewrite index_0; fold ws; rewrite Hws.
  assert (Hlast : Js.index ws (Js.length ws - 1) = Some z).
  { rewrite index_last. fold ws. rewrite Hws, app_comm_cons. apply last_snoc. }
  simpl in Hsa, Hta. rewrite Hhead in Hsa. rewrite Hlast in Hta.
  injection Hsa as <-. injection Hta as <-.
  eexists. split; [exact Hr|].
  unfold ConnectionDocking.getCroppedWaypoints. fold ws. rewrite Hws.
  constructor; [by split|]. apply Forall2_app.
  - apply Forall_Forall2_diag, Forall_forall. intros p _.
    apply sameCoordinates_refl.
  - constructor; [by split|constructor].
Qed.

(** X16. What [getCroppedWaypoints] returns is left as it is by a second
    cropping in which the intersection routine finds nothing, whatever
    the shapes and the geometry then are: the cropped waypoints are a
    fixed point. *)
Theorem cropped_is_fixed_point (gf gf' : GraphicsFactory num Shape)
    (isect isect' : Intersection num)
    (cow cow' : ConnectionOrWaypoints num Shape) (s t s' t' : option Shape)
    (r : list (Waypoint num)) :
  CroppingConnectionDocking.getCroppedWaypoints gf isect cow s t = Normal r →
  waypointsOf cow' = r →
  CroppingConnectionDocking._getIntersection gf' isect'
    (Js.or s' (sourceOf cow')) r true = None →
  CroppingConnectionDocking._getIntersection gf' isect'
    (Js.or t' (targetOf cow')) r false = None →
  CroppingConnectionDocking.getCroppedWaypoints gf' isect' cow' s' t'
  = Normal r.
Proof.
  intros Hr Hws' Hs Ht.
  assert (Hshape : ∃ first mid final o1 o2,
            r = first :: mid ++ [final]
            ∧ original first = Some o1 ∧ original final = Some o2).
  { destruct (waypointsOf cow) as [|a l] eqn:Hws.
    { by rewrite (crop_empty gf isect cow s t Hws) in Hr. }
    destruct (decide (l = [])) as [->|Hl].
    - destruct (crop_single gf isect cow s t a Hws)
        as (sa & ta & _ & _ & Hr').
      rewrite Hr' in Hr. injection Hr as <-.
      by eexists _, [], _, _, _.
    - destruct (exists_last Hl) as (mid & z & ->).
      destruct (crop_two_or_more gf isect cow s t a z mid Hws)
        as (sa & ta & _ & _ & Hr').
      rewrite Hr' in Hr. injection Hr as <-.
      by eexists _, mid, _, _, _. }
  destruct Hshape as (first & mid & final & o1 & o2 & -> & Ho1 & Ho2).
  destruct (crop_two_or_more gf' isect' cow' s' t' first final mid Hws')
    as (sa & ta & Hsa & Hta & Hr').
  rewrite Hws' in Hsa, Hta.
  rewrite (actual_without_intersection _ _ _ _ _ Hs) in Hsa.
  rewrite (actual_without_intersection _ _ _ _ _ Ht) in Hta.
  simpl in Hsa, Hta. rewrite index_0 in Hsa. rewrite index_last in Hta.
  rewrite app_comm_cons, last_snoc in Hta. simpl in Hsa.
  injection Hsa as <-. injection Hta as <-.
  rewrite Hr'. do 2 f_equal; [by eapply rebuilt_with_original|].
  do 2 f_equal. by eapply rebuilt_with_original.
Qed.

End CroppingAgain.

(* ===================================================================== *)
(** * Part X: the small diagrams, run                                     *)
(* ===================================================================== *)

Section MoveOnTheDiagram.

Local Abbreviation task1 := WorkedMove.task1.
Local Abbreviation task2 := WorkedMove.task2.
Local Abbreviation participant := WorkedMove.participant.
Local Abbreviation process := WorkedMove.process.


Example getValidatedShapes_worked :
  MoveEvents.getValidatedShapes [task1; task2] task1 = [task1; task2]
  ∧ MoveEvents.getValidatedShapes [task1; participant] task1 = [participant]
  ∧ MoveEvents.getValidatedShapes [task1] participant = [participant].
Proof. vm_compute. repeat split. Qed.








Example move_end_worked :
  MoveEvents.onShapeMoveEnd WorkedMove.dragged
  = Normal
      (MoveEvents.mkEndResult
         (MoveEvents.mkContext
            (Some {| MoveEvents.x := inject_Z 4; MoveEvents.y := inject_Z 0 |})
            (Some MoveEvents.VTrue) (Some participant)
            (Some [task1]) (Some [task1]) (Some task1))
         (Some {| MoveEvents.callShapes := Some [task1];
                  MoveEvents.callDelta :=
                    {| MoveEvents.x := inject_Z 4;
                       MoveEvents.y := inject_Z 0 |};
                  MoveEvents.callTarget := Some participant;
                  MoveEvents.primaryShape := Some task1;
                  MoveEvents.attach := false |})
         MoveEvents.ReturnsUndefined).
Proof. reflexivity. Qed.

Lemma move_end_moves_witness :
  ∃ res,
    MoveEvents.onShapeMoveEnd WorkedMove.dragged = Normal res
    ∧ (MoveEvents.returned res = MoveEvents.ReturnsFalse
       ↔ Some MoveEvents.VTrue = Some MoveEvents.VFalse)
    ∧ (MoveEvents.moved res = None
       ↔ Some MoveEvents.VTrue = Some MoveEvents.VFalse
         ∨ ((-(1 # 2) <= 7 # 2)%Q ∧ (7 # 2 < 1 # 2)%Q
            ∧ (-(1 # 2) <= -(1 # 4))%Q ∧ (-(1 # 4) < 1 # 2)%Q))
    ∧ ∀ call,
        MoveEvents.moved res = Some call →
        MoveEvents.callShapes call = Some [task1]
        ∧ MoveEvents.callTarget call = Some participant
        ∧ MoveEvents.primaryShape call = Some task1
        ∧ (MoveEvents.attach call = true
           ↔ Some MoveEvents.VTrue = Some (MoveEvents.VString "attach"))
        ∧ MoveEvents.delta (MoveEvents.endContext res)
          = Some (MoveEvents.callDelta call)
        ∧ ∃ kx ky : Z,
            MoveEvents.callDelta call
            = {| MoveEvents.x := inject_Z kx; MoveEvents.y := inject_Z ky |}
            ∧ (kx ≠ 0 ∨ ky ≠ 0)
            ∧ ((7 # 2) - (1 # 2) < inject_Z kx)%Q
            ∧ (inject_Z kx <= (7 # 2) + (1 # 2))%Q
            ∧ (-(1 # 4) - (1 # 2) < inject_Z ky)%Q
            ∧ (inject_Z ky <= -(1 # 4) + (1 # 2))%Q.
Proof.
  apply (move_end_moves WorkedMove.dragged
           {| MoveEvents.x := 7 # 2; MoveEvents.y := - (1 # 4) |}).
  reflexivity.
Defined.

End MoveOnTheDiagram.

Section BootstrapOnTheModules.

Example bootstrap_worked :
  Diagram.visitAll [WorkedDiagram.move; WorkedDiagram.selection]
  = Diagram.mkLoaded
      [WorkedDiagram.core; WorkedDiagram.selection; WorkedDiagram.move]
      ["eventBus"; "canvas"; "selection"; "move"]%string
  ∧ Diagram.bootstrap (λ _, []) WorkedDiagram.resolve
      [WorkedDiagram.move; WorkedDiagram.selection]
    = Diagram.Returned ["eventBus"; "canvas"; "selection"; "move"]%string
  ∧ Diagram.bootstrap (λ _, []) WorkedDiagram.resolve
      [WorkedDiagram.move;
       Diagram.mkModule 4 [] ["broken"; "never"]%string;
       Diagram.mkModule 5 [] ["late"]%string]
    = Diagram.Thrown "broken"%string.
Proof. vm_compute. repeat split. Qed.

End BootstrapOnTheModules.

Section CroppingAgainOnTheDiagram.

Lemma cropping_without_crossing_witness :
  CroppingConnectionDocking.getDockingPoint
    Worked.graphicsFactory Worked.intersection Worked.connector
    (Some Worked.Unrendered) true
  = ConnectionDocking.getDockingPoint Worked.connector
      (Some Worked.Unrendered) true
  ∧ CroppingConnectionDocking.getDockingPoint
      Worked.graphicsFactory Worked.intersection Worked.connector None false
    = ConnectionDocking.getDockingPoint Worked.connector
        (@None Worked.Shape) false
  ∧ ∃ r,
      CroppingConnectionDocking.getCroppedWaypoints
        Worked.graphicsFactory Worked.intersection
        (AnArray Worked.connector) (Some Worked.Unrendered) None
      = Normal r
      ∧ Forall2 sameCoordinates r
          (ConnectionDocking.getCroppedWaypoints
             (AnArray Worked.connector) (Some Worked.Unrendered) None).
Proof.
  apply (cropping_without_crossing
           Worked.graphicsFactory Worked.intersection
           (AnArray Worked.connector) (Some Worked.Unrendered) None).
  - simpl. lia.
  - reflexivity.
  - reflexivity.
Defined.

Lemma cropped_is_fixed_point_witness :
  CroppingConnectionDocking.getCroppedWaypoints
    Worked.graphicsFactory Worked.intersection
    (AnArray [ptOrig 100 50 (pt 50 50); ptOrig 200 50 (pt 250 50)])
    (Some Worked.Unrendered) None
  = Normal [ptOrig 100 50 (pt 50 50); ptOrig 200 50 (pt 250 50)].
Proof.
  apply (cropped_is_fixed_point
           Worked.graphicsFactory Worked.graphicsFactory
           Worked.intersection Worked.intersection
           (AnArray Worked.connector)
           (AnArray [ptOrig 100 50 (pt 50 50); ptOrig 200 50 (pt 250 50)])
           (Some Worked.Left) (Some Worked.Right)
           (Some Worked.Unrendered) None).
  - reflexivity.
  - reflexivity.
  - reflexivity.
  - reflexivity.
Defined.

End CroppingAgainOnTheDiagram.

(* ===================================================================== *)
(** * Part XI: what the cropped array shares with the connection          *)
(* ===================================================================== *)

Section SharedWaypoints.
Context {num Shape : Type}.
Variable gfS : @OnStore.GraphicsFactory num Shape.
Variable isect : Intersection num.

Local Abbreviation Store := (gmap positive (OnStore.Cell num Shape)).




End SharedWaypoints.

